(** * The per-device stream and cuBLAS-handle pool of cuda/stream_manager.cpp

    A shallow embedding of [CudaStreamManager] (the pool), of the
    process-wide registry [smgrs] with its mutex, and of
    [getCudaStreamManager], over an explicit model of the accelerator
    runtime that counts every create, bind, synchronize and destroy call. *)

From Stdlib Require Import ZArith Lia Bool.
From stdpp Require Import base gmap list.
From Equations Require Import Equations.

Local Open Scope Z_scope.

(* set_solver clears hypotheses by name and warns when one is gone. *)
#[local] Set Warnings "-clear-no-such-hyp".

(** ** Machine integers and opaque runtime objects *)

(** [#define SMGR_N_STREAMS 16] *)
Definition SMGR_N_STREAMS : Z := 16.

(** [size_t] is 64 bits wide: converting an integer to it wraps. *)
Definition SIZE_T_MODULUS : Z := 2 ^ 64.
Definition to_size_t (x : Z) : Z := x mod SIZE_T_MODULUS.

(** [cudaStream_t] and [cublasHandle_t] are opaque pointers handed out by
    the runtime; pool objects live at addresses returned by [new].  All
    three are identified by natural numbers. *)
Abbreviation cudaStream_t := nat (only parsing).
Abbreviation cublasHandle_t := nat (only parsing).
Abbreviation ptr := nat (only parsing).

Inductive cudaError_t :=
| cudaSuccess
| cudaErrorMemoryAllocation
| cudaErrorInvalidDevice
| cudaErrorInvalidResourceHandle.

Inductive cublasStatus_t :=
| CUBLAS_STATUS_SUCCESS
| CUBLAS_STATUS_NOT_INITIALIZED
| CUBLAS_STATUS_ALLOC_FAILED.

(** ** The accelerator runtime

    Every call the pool makes is recorded, with its result, in
    chronological order. *)
Inductive event :=
| EvSetDevice (d : Z) (r : cudaError_t)
| EvStreamCreate (r : option cudaStream_t)
| EvBlasCreate (r : option cublasHandle_t)
| EvSetStream (h : cublasHandle_t) (s : cudaStream_t) (r : cublasStatus_t)
| EvStreamSynchronize (s : cudaStream_t) (r : cudaError_t)
| EvStreamDestroy (s : cudaStream_t) (r : cudaError_t)
| EvBlasDestroy (h : cublasHandle_t) (r : cublasStatus_t).

Record Device := mkDevice {
  dev_count : Z;                       (* number of accelerators *)
  dev_current : Z;                     (* the calling thread's device *)
  dev_next_stream : nat;               (* next fresh stream object *)
  dev_next_handle : nat;               (* next fresh cuBLAS handle *)
  dev_streams : gset nat;              (* streams created, not destroyed *)
  dev_handles : gset nat;              (* handles created, not destroyed *)
  dev_bound : gmap nat nat;            (* handle -> stream it submits to *)
  dev_pending : gmap nat nat;          (* stream -> submitted, unfinished work *)
  dev_faults : list bool;              (* results of the next create calls *)
  dev_trace : list event               (* every runtime call so far *)
}.

Definition log (e : event) (D : Device) : Device :=
  mkDevice (dev_count D) (dev_current D) (dev_next_stream D)
    (dev_next_handle D) (dev_streams D) (dev_handles D) (dev_bound D)
    (dev_pending D) (dev_faults D) (dev_trace D ++ [e]).

(** A create call consumes the head of the fault script; an exhausted
    script means the call succeeds. *)
Definition next_fault (D : Device) : bool * Device :=
  match dev_faults D with
  | [] => (false, D)
  | b :: fs =>
      (b, mkDevice (dev_count D) (dev_current D) (dev_next_stream D)
            (dev_next_handle D) (dev_streams D) (dev_handles D)
            (dev_bound D) (dev_pending D) fs (dev_trace D))
  end.

Definition cudaSetDevice (d : Z) (D : Device) : cudaError_t * Device :=
  if (0 <=? d) && (d <? dev_count D) then
    (cudaSuccess,
     log (EvSetDevice d cudaSuccess)
       (mkDevice (dev_count D) d (dev_next_stream D) (dev_next_handle D)
          (dev_streams D) (dev_handles D) (dev_bound D) (dev_pending D)
          (dev_faults D) (dev_trace D)))
  else (cudaErrorInvalidDevice, log (EvSetDevice d cudaErrorInvalidDevice) D).

(** [cudaStreamCreate(p)]: on success a stream that did not exist before
    is written through [p]; on failure nothing is written. *)
Definition cudaStreamCreate (D : Device)
  : cudaError_t * option cudaStream_t * Device :=
  let '(fault, D1) := next_fault D in
  if fault then
    (cudaErrorMemoryAllocation, None, log (EvStreamCreate None) D1)
  else
    let s := dev_next_stream D1 in
    (cudaSuccess, Some s,
     log (EvStreamCreate (Some s))
       (mkDevice (dev_count D1) (dev_current D1) (S s) (dev_next_handle D1)
          ({[ s ]} ∪ dev_streams D1) (dev_handles D1) (dev_bound D1)
          (dev_pending D1) (dev_faults D1) (dev_trace D1))).

(** [cublasCreate(p)]: likewise for a math-library handle. *)
Definition cublasCreate (D : Device)
  : cublasStatus_t * option cublasHandle_t * Device :=
  let '(fault, D1) := next_fault D in
  if fault then
    (CUBLAS_STATUS_ALLOC_FAILED, None, log (EvBlasCreate None) D1)
  else
    let h := dev_next_handle D1 in
    (CUBLAS_STATUS_SUCCESS, Some h,
     log (EvBlasCreate (Some h))
       (mkDevice (dev_count D1) (dev_current D1) (dev_next_stream D1) (S h)
          (dev_streams D1) ({[ h ]} ∪ dev_handles D1) (dev_bound D1)
          (dev_pending D1) (dev_faults D1) (dev_trace D1))).

(** [cublasSetStream(h, s)] binds a live handle to [s]; on a handle that
    is not live it reports CUBLAS_STATUS_NOT_INITIALIZED and binds nothing. *)
Definition cublasSetStream (h : cublasHandle_t) (s : cudaStream_t)
    (D : Device) : cublasStatus_t * Device :=
  if decide (h ∈ dev_handles D) then
    (CUBLAS_STATUS_SUCCESS,
     log (EvSetStream h s CUBLAS_STATUS_SUCCESS)
       (mkDevice (dev_count D) (dev_current D) (dev_next_stream D)
          (dev_next_handle D) (dev_streams D) (dev_handles D)
          (<[ h := s ]> (dev_bound D)) (dev_pending D) (dev_faults D)
          (dev_trace D)))
  else
    (CUBLAS_STATUS_NOT_INITIALIZED,
     log (EvSetStream h s CUBLAS_STATUS_NOT_INITIALIZED) D).

(** [cudaStreamSynchronize(s)] returns once all the work submitted to the
    live stream [s] has completed. *)
Definition cudaStreamSynchronize (s : cudaStream_t) (D : Device)
  : cudaError_t * Device :=
  if decide (s ∈ dev_streams D) then
    (cudaSuccess,
     log (EvStreamSynchronize s cudaSuccess)
       (mkDevice (dev_count D) (dev_current D) (dev_next_stream D)
          (dev_next_handle D) (dev_streams D) (dev_handles D) (dev_bound D)
          (delete s (dev_pending D)) (dev_faults D) (dev_trace D)))
  else
    (cudaErrorInvalidResourceHandle,
     log (EvStreamSynchronize s cudaErrorInvalidResourceHandle) D).

Definition cudaStreamDestroy (s : cudaStream_t) (D : Device)
  : cudaError_t * Device :=
  if decide (s ∈ dev_streams D) then
    (cudaSuccess,
     log (EvStreamDestroy s cudaSuccess)
       (mkDevice (dev_count D) (dev_current D) (dev_next_stream D)
          (dev_next_handle D) (dev_streams D ∖ {[ s ]}) (dev_handles D)
          (dev_bound D) (delete s (dev_pending D)) (dev_faults D)
          (dev_trace D)))
  else
    (cudaErrorInvalidResourceHandle,
     log (EvStreamDestroy s cudaErrorInvalidResourceHandle) D).

Definition cublasDestroy (h : cublasHandle_t) (D : Device)
  : cublasStatus_t * Device :=
  if decide (h ∈ dev_handles D) then
    (CUBLAS_STATUS_SUCCESS,
     log (EvBlasDestroy h CUBLAS_STATUS_SUCCESS)
       (mkDevice (dev_count D) (dev_current D) (dev_next_stream D)
          (dev_next_handle D) (dev_streams D) (dev_handles D ∖ {[ h ]})
          (delete h (dev_bound D)) (dev_pending D) (dev_faults D)
          (dev_trace D)))
  else
    (CUBLAS_STATUS_NOT_INITIALIZED,
     log (EvBlasDestroy h CUBLAS_STATUS_NOT_INITIALIZED) D).

(** A caller launches [n] units of work on stream [s] (through the stream
    itself or through a handle bound to it). *)
Definition submit (s : cudaStream_t) (n : nat) (D : Device) : Device :=
  mkDevice (dev_count D) (dev_current D) (dev_next_stream D)
    (dev_next_handle D) (dev_streams D) (dev_handles D) (dev_bound D)
    (<[ s := (default 0%nat (dev_pending D !! s) + n)%nat ]> (dev_pending D))
    (dev_faults D) (dev_trace D).

(** Work still running on [s]. *)
Definition pending (D : Device) (s : cudaStream_t) : nat :=
  default 0%nat (dev_pending D !! s).

(** ** Pool objects, the registry and the world they live in *)

(** Modelled from the spec: the class declaration of stream_manager.h is
    not part of the sources.  The pool has a device id, the [use_default]
    flag, and two array pointers.  A pointer field is [None] while it
    points to no array (before [setup], after [delete[]]); an array slot is
    [None] while nothing has been written to it.  The build-conditional
    collective-communication flag is left out (FMOE_USE_NCCL undefined). *)
Record CudaStreamManager := mkPool {
  device : Z;
  use_default : bool;
  streams : option (list (option cudaStream_t));
  handles : option (list (option cublasHandle_t))
}.

Record World := mkWorld {
  heap : gmap nat CudaStreamManager;   (* objects allocated with new *)
  next_ptr : nat;                      (* next address new returns *)
  smgrs : gmap Z nat;                  (* the registry: device -> pool *)
  smgr_mtx : option nat;               (* the thread holding the mutex *)
  gpu : Device;                        (* the accelerator runtime *)
  current_stream : cudaStream_t;       (* host framework: ambient stream *)
  current_blas_handle : cublasHandle_t (* host framework: ambient handle *)
}.

Definition with_heap (hp : gmap nat CudaStreamManager) (w : World) : World :=
  mkWorld hp (next_ptr w) (smgrs w) (smgr_mtx w) (gpu w)
    (current_stream w) (current_blas_handle w).

Definition with_gpu (D : Device) (w : World) : World :=
  mkWorld (heap w) (next_ptr w) (smgrs w) (smgr_mtx w) D
    (current_stream w) (current_blas_handle w).

Definition with_smgrs (r : gmap Z nat) (w : World) : World :=
  mkWorld (heap w) (next_ptr w) r (smgr_mtx w) (gpu w)
    (current_stream w) (current_blas_handle w).

Definition with_mtx (o : option nat) (w : World) : World :=
  mkWorld (heap w) (next_ptr w) (smgrs w) o (gpu w)
    (current_stream w) (current_blas_handle w).

(** ** Computations: state passing with errors *)

Inductive error :=
| CudaError (e : cudaError_t)
| CublasError (e : cublasStatus_t).

(** A call returns a value, leaves through a failed [checkCudaErrors], or
    has undefined behaviour (a read through an invalid pointer or of a slot
    never written). *)
Inductive outcome (A : Type) :=
| Ok (a : A)
| Raised (e : error)
| Undefined.
Arguments Ok {A} a.
Arguments Raised {A} e.
Arguments Undefined {A}.

Definition M (A : Type) : Type := World -> outcome A * World.

Definition ret {A} (a : A) : M A := fun w => (Ok a, w).

Definition bind {A B} (c : M A) (k : A -> M B) : M B :=
  fun w =>
    match c w with
    | (Ok a, w1) => k a w1
    | (Raised e, w1) => (Raised e, w1)
    | (Undefined, w1) => (Undefined, w1)
    end.

Notation "x <- c ;; k" := (bind c (fun x => k))
  (at level 100, c at next level, right associativity).
Notation "c ;;; k" := (bind c (fun _ => k))
  (at level 100, right associativity).

Definition undefined {A} : M A := fun w => (Undefined, w).
Definition raise {A} (e : error) : M A := fun w => (Raised e, w).

(** A runtime call. *)
Definition rt {A} (f : Device -> A * Device) : M A :=
  fun w => let '(a, D) := f (gpu w) in (Ok a, with_gpu D w).

(** [*this] read and written. *)
Definition load (this : ptr) : M CudaStreamManager :=
  fun w =>
    match heap w !! this with
    | Some o => (Ok o, w)
    | None => (Undefined, w)
    end.

Definition store (this : ptr) (o : CudaStreamManager) : M unit :=
  fun w => (Ok tt, with_heap (<[ this := o ]> (heap w)) w).

(** [arr[i]] read: the pointer must point to an array, [i] must be in
    range and the slot must hold a value. *)
Definition read_slot {A} (arr : option (list (option A))) (i : Z) : M A :=
  match arr with
  | Some l =>
      if 0 <=? i then
        match l !! Z.to_nat i with
        | Some (Some x) => ret x
        | _ => undefined
        end
      else undefined
  | None => undefined
  end.

(** What the runtime wrote through [arr + i], if anything. *)
Definition write_slot {A} (arr : option (list (option A))) (i : Z)
    (out : option A) : option (list (option A)) :=
  match out with
  | Some x => (fun l => <[ Z.to_nat i := Some x ]> l) <$> arr
  | None => arr
  end.

(** Status codes that [checkCudaErrors] accepts. *)
Class Status (T : Type) := {
  succeeded : T -> bool;
  as_error : T -> error
}.

#[export] Instance cuda_status : Status cudaError_t := {|
  succeeded r := match r with cudaSuccess => true | _ => false end;
  as_error := CudaError
|}.

#[export] Instance cublas_status : Status cublasStatus_t := {|
  succeeded r := match r with CUBLAS_STATUS_SUCCESS => true | _ => false end;
  as_error := CublasError
|}.

(** Modelled from the spec: the macro [checkCudaErrors] of
    fastermoe/status.h is not part of the sources.  A runtime or
    math-library failure is surfaced to the caller at once, verbatim;
    success lets the code go on. *)
Definition checkCudaErrors {T} `{Status T} (r : T) : M unit :=
  if succeeded r then ret tt else raise (as_error r).

(** Host framework accessors: [c10::cuda::getCurrentCUDAStream().stream()]
    and [at::cuda::getCurrentCUDABlasHandle()]. *)
Definition getCurrentCUDAStream : M cudaStream_t :=
  fun w => (Ok (current_stream w), w).

Definition getCurrentCUDABlasHandle : M cublasHandle_t :=
  fun w => (Ok (current_blas_handle w), w).

(** ** CudaStreamManager: the pool's operations *)

Definition set_device (d : Z) (o : CudaStreamManager) : CudaStreamManager :=
  mkPool d (use_default o) (streams o) (handles o).

Definition set_use_default (b : bool) (o : CudaStreamManager)
  : CudaStreamManager :=
  mkPool (device o) b (streams o) (handles o).

Definition set_streams (a : option (list (option cudaStream_t)))
    (o : CudaStreamManager) : CudaStreamManager :=
  mkPool (device o) (use_default o) a (handles o).

Definition set_handles (a : option (list (option cublasHandle_t)))
    (o : CudaStreamManager) : CudaStreamManager :=
  mkPool (device o) (use_default o) (streams o) a.

(** [new T[n]]: an array of [n] slots, none of them written yet. *)
Definition new_array {A} (n : Z) : option (list (option A)) :=
  Some (replicate (Z.to_nat n) None).

(** [cudaStream_t CudaStreamManager::stream(size_t idx)] *)
Definition stream (this : ptr) (idx : Z) : M cudaStream_t :=
  self <- load this ;;
  if use_default self then getCurrentCUDAStream
  else read_slot (streams self) (to_size_t idx mod SMGR_N_STREAMS).

(** [cublasHandle_t CudaStreamManager::handle(size_t idx)] *)
Definition handle (this : ptr) (idx : Z) : M cublasHandle_t :=
  self <- load this ;;
  if use_default self then getCurrentCUDABlasHandle
  else read_slot (handles self) (to_size_t idx mod SMGR_N_STREAMS).

(** The loop of [sync]:
    [for (int i = 0; i < idx && i < SMGR_N_STREAMS; ++i)].  The status of
    [cudaStreamSynchronize] is dropped, as in the source. *)
Equations? sync_loop (this : ptr) (idx : Z) (i : Z) : M unit
  by wf (Z.to_nat (SMGR_N_STREAMS - i)) lt :=
sync_loop this idx i with decide (i < idx /\ i < SMGR_N_STREAMS) := {
  | left _ =>
      self <- load this ;;
      s <- read_slot (streams self) i ;;
      rt (cudaStreamSynchronize s) ;;;
      sync_loop this idx (i + 1)
  | right _ => ret tt }.
Proof. unfold SMGR_N_STREAMS in *. lia. Qed.

(** [void CudaStreamManager::sync(int idx)] *)
Definition sync (this : ptr) (idx : Z) : M unit :=
  self <- load this ;;
  if use_default self then ret tt
  else sync_loop this idx 0.

(** The loop of [setup]: [for (size_t i = 0; i < SMGR_N_STREAMS; ++i)].
    Each create call writes through [streams + i] or [handles + i] before
    its status is checked; the status of [cublasSetStream] is dropped. *)
Equations? setup_loop (this : ptr) (i : Z) : M unit
  by wf (Z.to_nat (SMGR_N_STREAMS - i)) lt :=
setup_loop this i with decide (i < SMGR_N_STREAMS) := {
  | left _ =>
      self <- load this ;;
      created <- rt cudaStreamCreate ;;
      let '(r, out) := created in
      store this (set_streams (write_slot (streams self) i out) self) ;;;
      checkCudaErrors r ;;;
      self <- load this ;;
      created <- rt cublasCreate ;;
      let '(r, out) := created in
      store this (set_handles (write_slot (handles self) i out) self) ;;;
      checkCudaErrors r ;;;
      self <- load this ;;
      h <- read_slot (handles self) i ;;
      s <- read_slot (streams self) i ;;
      rt (cublasSetStream h s) ;;;
      setup_loop this (i + 1)
  | right _ => ret tt }.
Proof. unfold SMGR_N_STREAMS in *. lia. Qed.

(** [void CudaStreamManager::setup(const int device)], built without
    FMOE_USE_NCCL. *)
Definition setup (this : ptr) (device_ : Z) : M unit :=
  self <- load this ;;
  store this (set_device device_ self) ;;;
  r <- rt (cudaSetDevice device_) ;;
  checkCudaErrors r ;;;
  self <- load this ;;
  store this (set_streams (new_array SMGR_N_STREAMS) self) ;;;
  self <- load this ;;
  store this (set_handles (new_array SMGR_N_STREAMS) self) ;;;
  setup_loop this 0.

(** The loop of [destroy]: [for (size_t i = 0; i < SMGR_N_STREAMS; ++i)]. *)
Equations? destroy_loop (this : ptr) (i : Z) : M unit
  by wf (Z.to_nat (SMGR_N_STREAMS - i)) lt :=
destroy_loop this i with decide (i < SMGR_N_STREAMS) := {
  | left _ =>
      self <- load this ;;
      s <- read_slot (streams self) i ;;
      r <- rt (cudaStreamDestroy s) ;;
      checkCudaErrors r ;;;
      h <- read_slot (handles self) i ;;
      r <- rt (cublasDestroy h) ;;
      checkCudaErrors r ;;;
      destroy_loop this (i + 1)
  | right _ => ret tt }.
Proof. unfold SMGR_N_STREAMS in *. lia. Qed.

(** [delete[] p]: the array must exist; afterwards the pointer dangles. *)
Definition delete_array {A} (arr : option (list (option A))) : M unit :=
  match arr with
  | Some _ => ret tt
  | None => undefined
  end.

(** [void CudaStreamManager::destroy()] *)
Definition destroy (this : ptr) : M unit :=
  destroy_loop this 0 ;;;
  self <- load this ;;
  delete_array (streams self) ;;;
  store this (set_streams None self) ;;;
  self <- load this ;;
  delete_array (handles self) ;;;
  store this (set_handles None self).

(** The façade's toggle: a plain write to the [use_default] field. *)
Definition write_use_default (this : ptr) (b : bool) : M unit :=
  self <- load this ;;
  store this (set_use_default b self).

(** Modelled from the spec: the constructor is declared in stream_manager.h,
    which is not part of the sources.  [new CudaStreamManager(device)]
    allocates a pool bound to [device] with [use_default] false and runs
    [setup(device)] on it.  When the constructor is left through an error
    the new-expression gives the storage of the object back before the
    error reaches the caller; no destructor runs, so what [setup] had
    created in the runtime stays as it is. *)
Definition new_CudaStreamManager (device_ : Z) : M ptr :=
  fun w =>
    let this := next_ptr w in
    let w1 :=
      mkWorld (<[ this := mkPool device_ false None None ]> (heap w))
        (S this) (smgrs w) (smgr_mtx w) (gpu w)
        (current_stream w) (current_blas_handle w) in
    match setup this device_ w1 with
    | (Ok _, w2) => (Ok this, w2)
    | (Raised e, w2) => (Raised e, with_heap (delete this (heap w2)) w2)
    | (Undefined, w2) => (Undefined, w2)
    end.

(** A world to run examples in: one pool object allocated at address 0,
    nothing set up, [n] accelerators, and a fault script. *)
Definition fresh_device (n : Z) (faults : list bool) : Device :=
  mkDevice n 0 10 100 ∅ ∅ ∅ ∅ faults [].

Definition fresh_world (n : Z) (faults : list bool) : World :=
  mkWorld {[ 0%nat := mkPool 0 false None None ]} 1 ∅ None
    (fresh_device n faults) 1000 2000.

Definition world_after {A} (c : M A) (w : World) : World := snd (c w).
Definition result_of {A} (c : M A) (w : World) : outcome A := fst (c w).

(** ** The registry: smgrs, smgr_mtx and getCudaStreamManager

    [getCudaStreamManager] runs concurrently in several threads, so it is a
    program of atomic actions on the shared world.  An action is run by a
    thread; [None] means the thread cannot take the step now (it waits).
    Each action says what it touches of the two shared objects, [smgrs]
    and [smgr_mtx]. *)
Inductive access :=
| ReadsMap         (* a const member of smgrs, or a use of an iterator *)
| WritesMap        (* a member of smgrs that modifies it *)
| Acquires         (* smgr_mtx.lock() *)
| Releases         (* smgr_mtx.unlock() *)
| Private.         (* neither smgrs nor smgr_mtx *)

Record action (X : Type) : Type := mkAction {
  touches : access;
  effect :> nat -> World -> option (outcome X * World)
}.
Arguments mkAction {X} touches effect.
Arguments touches {X} a.
Arguments effect {X} a t w.

Inductive prog (A : Type) : Type :=
| Return (a : A)
| Atomic {X : Type} (act : action X) (k : X -> prog A).
Arguments Return {A} a.
Arguments Atomic {A X} act k.

Notation "x <~ act ;; k" := (Atomic act (fun x => k))
  (at level 100, act at next level, right associativity).

(** An iterator into [smgrs] is the key of the entry it points to; [None]
    is [smgrs.end()]. *)
Abbreviation iterator := (option Z) (only parsing).

(** [smgrs.find(device)], with the comparison against [smgrs.end()]. *)
Definition smgrs_find (device_ : Z) : action iterator :=
  mkAction ReadsMap
    (fun _ w =>
       match smgrs w !! device_ with
       | Some _ => Some (Ok (Some device_), w)
       | None => Some (Ok None, w)
       end).

(** [it->second]: reads the entry the iterator points to. *)
Definition iter_second (it : Z) : action ptr :=
  mkAction ReadsMap
    (fun _ w =>
       match smgrs w !! it with
       | Some smgr => Some (Ok smgr, w)
       | None => Some (Undefined, w)
       end).

(** [smgrs.emplace(device, smgr)] inserts unless the key is present. *)
Definition smgrs_emplace (device_ : Z) (smgr : ptr) : action unit :=
  mkAction WritesMap
    (fun _ w =>
       match smgrs w !! device_ with
       | None => Some (Ok tt, with_smgrs (<[ device_ := smgr ]> (smgrs w)) w)
       | Some _ => Some (Ok tt, w)
       end).

(** [smgr_mtx.lock()] waits while another thread holds the mutex; by the
    thread that holds it already it is undefined ([std::mutex] is not
    recursive). *)
Definition mtx_lock : action unit :=
  mkAction Acquires
    (fun t w =>
       match smgr_mtx w with
       | None => Some (Ok tt, with_mtx (Some t) w)
       | Some owner =>
           if decide (owner = t) then Some (Undefined, w) else None
       end).

(** [smgr_mtx.unlock()] by a thread that does not hold it is undefined. *)
Definition mtx_unlock : action unit :=
  mkAction Releases
    (fun t w =>
       if decide (smgr_mtx w = Some t) then Some (Ok tt, with_mtx None w)
       else Some (Undefined, w)).

(** A whole pool operation as one action. *)
Definition atomically {X} (c : M X) : action X :=
  mkAction Private (fun _ w => Some (c w)).

(** [CudaStreamManager* getCudaStreamManager(const int device)] *)
Definition getCudaStreamManager (device_ : Z) : prog ptr :=
  it <~ smgrs_find device_ ;;                                  (* line 68 *)
  match it with
  | None =>
      _ <~ mtx_lock ;;                                         (* line 70 *)
      it <~ smgrs_find device_ ;;                              (* line 71 *)
      match it with
      | None =>
          smgr <~ atomically (new_CudaStreamManager device_) ;; (* line 73 *)
          _ <~ smgrs_emplace device_ smgr ;;                   (* line 74 *)
          _ <~ mtx_unlock ;;                                   (* line 75 *)
          Return smgr
      | Some it =>
          _ <~ mtx_unlock ;;                                   (* line 79 *)
          second <~ iter_second it ;;                          (* line 82 *)
          Return second
      end
  | Some it =>
      second <~ iter_second it ;;                              (* line 82 *)
      Return second
  end.

(** One thread running a program to its end, nobody interleaving.  Runs
    that follow one another are calls that something outside has put in
    this order. *)
Fixpoint run {A} (t : nat) (p : prog A) (w : World)
  : option (outcome A * World) :=
  match p with
  | Return a => Some (Ok a, w)
  | Atomic act k =>
      match act t w with
      | Some (Ok x, w1) => run t (k x) w1
      | Some (Raised e, w1) => Some (Raised e, w1)
      | Some (Undefined, w1) => Some (Undefined, w1)
      | None => None
      end
  end.

(** What callers do with pools between registry lookups. *)
Inductive pool_call :=
| CallStream (p : ptr) (idx : Z)
| CallHandle (p : ptr) (idx : Z)
| CallSync (p : ptr) (idx : Z)
| CallUseDefault (p : ptr) (b : bool)
| CallSubmit (s : cudaStream_t) (n : nat).

Definition do_call (c : pool_call) (w : World) : World :=
  match c with
  | CallStream p idx => world_after (stream p idx) w
  | CallHandle p idx => world_after (handle p idx) w
  | CallSync p idx => world_after (sync p idx) w
  | CallUseDefault p b => world_after (write_use_default p b) w
  | CallSubmit s n => with_gpu (submit s n (gpu w)) w
  end.

(** *** Which accesses to smgrs are ordered

    [std::unordered_map] promises nothing when a member that modifies the
    map runs in one thread and any other access to the map in another,
    unless one of the two happens before the other: that is a data race,
    and the behaviour is undefined.  Between the threads of this process
    only [smgr_mtx] orders anything: what a thread did before an unlock
    has happened before what another thread does after a later lock.  The
    process keeps vector clocks to tell.  The epoch of a thread starts at
    one and grows by one at each of its unlocks; a clock gives, for each
    thread, the last of its epochs that is known to be over or running. *)
Abbreviation clock := (gmap nat nat) (only parsing).

Definition clock_at (c : clock) (t : nat) : nat := default 0%nat (c !! t).

Definition clock_join (c1 c2 : clock) : clock :=
  union_with (fun a b => Some (Nat.max a b)) c1 c2.

Record Order := mkOrder {
  seen : gmap nat (gmap nat nat);   (* per thread: what has happened before
                                       its next action *)
  released : gmap nat nat;          (* what had happened before the last
                                       unlock of smgr_mtx *)
  reads : gmap nat nat;             (* per thread: its last read of smgrs *)
  writes : gmap nat nat             (* per thread: its last write of smgrs *)
}.

Definition seen_by (o : Order) (t : nat) : clock :=
  default {[ t := 1%nat ]} (seen o !! t).

(** The threads with an access among [acc] that has not happened before
    the next action of a thread that has seen [c]. *)
Definition unordered (c acc : clock) : list nat :=
  fst <$> List.filter (fun un => (clock_at c (fst un) <? snd un)%nat)
            (map_to_list acc).

(** The threads the next action of [t] races with: a read with the writes
    it is not ordered after, a write with the writes and the reads. *)
Definition racing (a : access) (t : nat) (o : Order) : list nat :=
  match a with
  | ReadsMap => unordered (seen_by o t) (writes o)
  | WritesMap =>
      unordered (seen_by o t) (writes o) ++ unordered (seen_by o t) (reads o)
  | _ => []
  end.

(** The bookkeeping after an action of [t] that went through. *)
Definition observe (a : access) (t : nat) (o : Order) : Order :=
  let c := seen_by o t in
  match a with
  | ReadsMap =>
      mkOrder (seen o) (released o) (<[ t := clock_at c t ]> (reads o))
        (writes o)
  | WritesMap =>
      mkOrder (seen o) (released o) (reads o)
        (<[ t := clock_at c t ]> (writes o))
  | Acquires =>
      mkOrder (<[ t := clock_join c (released o) ]> (seen o)) (released o)
        (reads o) (writes o)
  | Releases =>
      mkOrder (<[ t := <[ t := S (clock_at c t) ]> c ]> (seen o)) c
        (reads o) (writes o)
  | Private => o
  end.

(** What the callers do to order two threads (one starts or joins the
    other, or they pass a lock of their own): what [t] has done so far has
    happened before what [u] does next. *)
Definition hand_over (t u : nat) (o : Order) : Order :=
  let c := seen_by o t in
  mkOrder
    (<[ t := <[ t := S (clock_at c t) ]> c ]>
       (<[ u := clock_join (seen_by o u) c ]> (seen o)))
    (released o) (reads o) (writes o).

(** Threads of the process. *)
Inductive thread :=
| Idle
| Calling (d : Z) (p : prog ptr)     (* inside getCudaStreamManager(d) *)
| Failed (e : error)                 (* left the call through an error *)
| Broken.                            (* ran into undefined behaviour *)

Record System := mkSystem {
  world : World;
  threads : gmap nat thread;
  returned : list (Z * nat);         (* completed calls: device, pool *)
  order : Order
}.

Definition thread_of (sys : System) (t : nat) : thread :=
  default Idle (threads sys !! t).

(** What the scheduler can pick next. *)
Inductive sched :=
| Begin (t : nat) (d : Z)            (* thread t calls getCudaStreamManager(d) *)
| Step (t : nat)                     (* thread t runs its next action *)
| Finish (t : nat)                   (* thread t returns from the call *)
| Use (c : pool_call)                (* some thread uses a pool *)
| Sync (t u : nat).                  (* the callers order what t has done
                                        before what u does next *)

Definition outside (st : thread) : bool :=
  match st with
  | Idle | Failed _ => true
  | Calling _ _ | Broken => false
  end.

(** Thread [t] enters [getCudaStreamManager(d)]; a thread that left its
    last call through an error may call again. *)
Definition enter (t : nat) (d : Z) (sys : System) : System :=
  mkSystem (world sys)
    (<[ t := Calling d (getCudaStreamManager d) ]> (threads sys))
    (returned sys) (order sys).

(** Thread [t], inside a call for [d], runs the action [act]. *)
Definition perform {X} (t : nat) (d : Z) (act : action X)
    (k : X -> prog ptr) (sys : System) : option System :=
  match act t (world sys) with
  | Some (Ok x, w1) =>
      Some (mkSystem w1 (<[ t := Calling d (k x) ]> (threads sys))
              (returned sys) (observe (touches act) t (order sys)))
  | Some (Raised e, w1) =>
      Some (mkSystem w1 (<[ t := Failed e ]> (threads sys))
              (returned sys) (order sys))
  | Some (Undefined, w1) =>
      Some (mkSystem w1 (<[ t := Broken ]> (threads sys))
              (returned sys) (order sys))
  | None => None
  end.

(** A data race: the threads that take part have undefined behaviour. *)
Definition break (us : list nat) (sys : System) : System :=
  mkSystem (world sys)
    (foldr (fun u ths => <[ u := Broken ]> ths) (threads sys) us)
    (returned sys) (order sys).

Definition sys_step (ev : sched) (sys : System) : option System :=
  match ev with
  | Begin t d =>
      match thread_of sys t with
      | Idle | Failed _ => Some (enter t d sys)
      | _ => None
      end
  | Step t =>
      match thread_of sys t with
      | Calling d (Atomic act k) =>
          match racing (touches act) t (order sys) with
          | [] => perform t d act k sys
          | us => Some (break (t :: us) sys)
          end
      | _ => None
      end
  | Finish t =>
      match thread_of sys t with
      | Calling d (Return p) =>
          Some (mkSystem (world sys) (<[ t := Idle ]> (threads sys))
                  (returned sys ++ [(d, p)]) (order sys))
      | _ => None
      end
  | Use c =>
      Some (mkSystem (do_call c (world sys)) (threads sys) (returned sys)
              (order sys))
  | Sync t u =>
      if outside (thread_of sys t) && outside (thread_of sys u)
      then Some (mkSystem (world sys) (threads sys) (returned sys)
                   (hand_over t u (order sys)))
      else None
  end.

Fixpoint exec (evs : list sched) (sys : System) : option System :=
  match evs with
  | [] => Some sys
  | ev :: evs' =>
      match sys_step ev sys with
      | Some sys1 => exec evs' sys1
      | None => None
      end
  end.

(** The process at start: no pool allocated, an empty registry, a free
    mutex, no thread inside a call and no access to the registry yet. *)
Definition boot_world (D : Device) (cs : cudaStream_t) (ch : cublasHandle_t)
  : World :=
  mkWorld ∅ 0 ∅ None D cs ch.

Definition boot (D : Device) (cs : cudaStream_t) (ch : cublasHandle_t)
  : System :=
  mkSystem (boot_world D cs ch) ∅ [] (mkOrder ∅ ∅ ∅ ∅).

(** ** Vocabulary of the properties *)

(** The runtime after waiting on each stream of [ss] in turn. *)
Definition synchronize_all (ss : list cudaStream_t) (D : Device) : Device :=
  foldl (fun D s => snd (cudaStreamSynchronize s D)) D ss.

(** The runtime calls [destroy] makes for slot after slot. *)
Definition release_all (ss : list cudaStream_t) (hs : list cublasHandle_t)
  : list event :=
  mjoin (zip_with
           (fun s h => [EvStreamDestroy s cudaSuccess;
                        EvBlasDestroy h CUBLAS_STATUS_SUCCESS]) ss hs).

Definition is_release (e : event) : bool :=
  match e with
  | EvStreamDestroy _ _ | EvBlasDestroy _ _ => true
  | _ => false
  end.

(** The runtime call that made [checkCudaErrors] raise [e]. *)
Definition failed_call (ev : event) (e : error) : Prop :=
  match ev with
  | EvSetDevice _ r => r <> cudaSuccess /\ e = CudaError r
  | EvStreamCreate None => e = CudaError cudaErrorMemoryAllocation
  | EvBlasCreate None => e = CublasError CUBLAS_STATUS_ALLOC_FAILED
  | _ => False
  end.

(** What [setup] has established for the pool at [this], and what stays
    true until [destroy]: the arrays hold [ss] and [hs], sixteen distinct
    live streams and handles made by the runtime, paired by index. *)
Record pool_live (this : ptr) (ss : list cudaStream_t)
    (hs : list cublasHandle_t) (w : World) : Prop := {
  pl_object : exists o, heap w !! this = Some o /\
                streams o = Some (Some <$> ss) /\
                handles o = Some (Some <$> hs);
  pl_allocated : (this < next_ptr w)%nat;
  pl_streams_len : length ss = Z.to_nat SMGR_N_STREAMS;
  pl_handles_len : length hs = Z.to_nat SMGR_N_STREAMS;
  pl_streams_nodup : NoDup ss;
  pl_handles_nodup : NoDup hs;
  pl_streams_live : forall s, s ∈ ss ->
      s ∈ dev_streams (gpu w) /\ EvStreamCreate (Some s) ∈ dev_trace (gpu w);
  pl_handles_live : forall h, h ∈ hs ->
      h ∈ dev_handles (gpu w) /\ (h < dev_next_handle (gpu w))%nat /\
      EvBlasCreate (Some h) ∈ dev_trace (gpu w);
  pl_bound : forall j h s, hs !! j = Some h -> ss !! j = Some s ->
      dev_bound (gpu w) !! h = Some s
}.

(** A pool is live once [setup] has completed on it, and stays live while
    callers use pools and further pools are constructed; [destroy] is not
    among these steps. *)
Inductive Live (this : ptr) : World -> Prop :=
| Live_setup w0 o d w :
    heap w0 !! this = Some o -> (this < next_ptr w0)%nat ->
    setup this d w0 = (Ok tt, w) -> Live this w
| Live_call c w : Live this w -> Live this (do_call c w)
| Live_new d w :
    Live this w -> Live this (world_after (new_CudaStreamManager d) w).






(** Everything but the heap and the runtime is left alone. *)
Record same_host (w w' : World) : Prop := {
  sh_next_ptr : next_ptr w' = next_ptr w;
  sh_smgrs : smgrs w' = smgrs w;
  sh_mtx : smgr_mtx w' = smgr_mtx w;
  sh_stream : current_stream w' = current_stream w;
  sh_handle : current_blas_handle w' = current_blas_handle w
}.

(** What any run of [setup] on the pool at [this], completed or not, does
    to the rest of the world: only this pool object is written; streams and
    handles are only added; handles that existed keep their binding; the
    runtime is asked for no release, and what it created is still there. *)
Record setup_frame (this : ptr) (w w' : World) : Prop := {
  sf_host : same_host w w';
  sf_heap : exists o', heap w' = <[ this := o' ]> (heap w) /\
      forall o, heap w !! this = Some o ->
        device o' = device o /\ use_default o' = use_default o;
  sf_pending : dev_pending (gpu w') = dev_pending (gpu w);
  sf_streams : dev_streams (gpu w) ⊆ dev_streams (gpu w');
  sf_handles : dev_handles (gpu w) ⊆ dev_handles (gpu w');
  sf_next_handle : (dev_next_handle (gpu w) <= dev_next_handle (gpu w'))%nat;
  sf_bound : forall h, (h < dev_next_handle (gpu w))%nat ->
      dev_bound (gpu w') !! h = dev_bound (gpu w) !! h;
  sf_trace : exists tr,
      dev_trace (gpu w') = dev_trace (gpu w) ++ tr /\
      (forall ev, ev ∈ tr -> is_release ev = false) /\
      (forall s, EvStreamCreate (Some s) ∈ tr -> s ∈ dev_streams (gpu w')) /\
      (forall h, EvBlasCreate (Some h) ∈ tr -> h ∈ dev_handles (gpu w'))
}.

(** One completed iteration of the loop of [setup], for slot [i]: the
    stream [s] and the handle [h] are new, stored in slot [i] and bound. *)
Record setup_iteration (this : ptr) (i : Z) (o : CudaStreamManager)
    (ls : list (option cudaStream_t)) (lh : list (option cublasHandle_t))
    (s : cudaStream_t) (h : cublasHandle_t) (w w1 : World) : Prop := {
  si_host : same_host w w1;
  si_heap : heap w1 =
            <[ this := mkPool (device o) (use_default o)
                         (Some (<[ Z.to_nat i := Some s ]> ls))
                         (Some (<[ Z.to_nat i := Some h ]> lh)) ]> (heap w);
  si_stream : s = dev_next_stream (gpu w);
  si_handle : h = dev_next_handle (gpu w);
  si_next_stream : dev_next_stream (gpu w1) = S s;
  si_next_handle : dev_next_handle (gpu w1) = S h;
  si_streams : dev_streams (gpu w1) = {[ s ]} ∪ dev_streams (gpu w);
  si_handles : dev_handles (gpu w1) = {[ h ]} ∪ dev_handles (gpu w);
  si_bound : dev_bound (gpu w1) = <[ h := s ]> (dev_bound (gpu w));
  si_pending : dev_pending (gpu w1) = dev_pending (gpu w);
  si_trace : dev_trace (gpu w1) =
             dev_trace (gpu w) ++
             [EvStreamCreate (Some s); EvBlasCreate (Some h);
              EvSetStream h s CUBLAS_STATUS_SUCCESS]
}.

(** The loop of [setup] about to fill slot [i]: slots [0 .. i-1] hold the
    streams [ss] and handles [hs] created so far. *)
Record setup_progress (this : ptr) (i : nat) (ss : list cudaStream_t)
    (hs : list cublasHandle_t) (w : World) : Prop := {
  sp_object : exists o ls lh,
      heap w !! this = Some o /\ streams o = Some ls /\ handles o = Some lh /\
      length ls = Z.to_nat SMGR_N_STREAMS /\
      length lh = Z.to_nat SMGR_N_STREAMS /\
      take i ls = Some <$> ss /\ take i lh = Some <$> hs;
  sp_allocated : (this < next_ptr w)%nat;
  sp_streams_nodup : NoDup ss;
  sp_handles_nodup : NoDup hs;
  sp_streams : forall s, s ∈ ss ->
      s ∈ dev_streams (gpu w) /\ (s < dev_next_stream (gpu w))%nat /\
      EvStreamCreate (Some s) ∈ dev_trace (gpu w);
  sp_handles : forall h, h ∈ hs ->
      h ∈ dev_handles (gpu w) /\ (h < dev_next_handle (gpu w))%nat /\
      EvBlasCreate (Some h) ∈ dev_trace (gpu w);
  sp_bound : forall j h s, hs !! j = Some h -> ss !! j = Some s ->
      dev_bound (gpu w) !! h = Some s
}.

(** What using pools (accessors, [sync], the [use_default] toggle, work
    submission) can change: the [use_default] flag of pool objects, and in
    the runtime the pending work and the trace. *)
Definition identity_of (o : CudaStreamManager) :=
  (device o, streams o, handles o).

Record steady (w w' : World) : Prop := {
  st_host : same_host w w';
  st_heap : forall p, identity_of <$> heap w' !! p = identity_of <$> heap w !! p;
  st_streams : dev_streams (gpu w') = dev_streams (gpu w);
  st_handles : dev_handles (gpu w') = dev_handles (gpu w);
  st_bound : dev_bound (gpu w') = dev_bound (gpu w);
  st_next_stream : dev_next_stream (gpu w') = dev_next_stream (gpu w);
  st_next_handle : dev_next_handle (gpu w') = dev_next_handle (gpu w);
  st_trace : exists tr, dev_trace (gpu w') = dev_trace (gpu w) ++ tr
}.

(** Every run of [c] relates the worlds before and after by [R]. *)
Definition preserves (R : World -> World -> Prop) {A} (c : M A) : Prop :=
  forall w r w', c w = (r, w') -> R w w'.

(** "handle(i) is bound to queue(i)" as the specification explains it:
    both accessors return what slot [i mod N] of their array holds, and the
    runtime has that handle submit to that stream. *)
Definition handle_bound_to_queue (this : ptr) (i : Z) (w : World) : Prop :=
  exists o h s,
    heap w !! this = Some o /\
    read_slot (handles o) (i mod SMGR_N_STREAMS) w = (Ok h, w) /\
    read_slot (streams o) (i mod SMGR_N_STREAMS) w = (Ok s, w) /\
    handle this i w = (Ok h, w) /\
    stream this i w = (Ok s, w) /\
    dev_bound (gpu w) !! h = Some s.

(** How many events of a trace satisfy [f]. *)
Fixpoint count_events (f : event -> bool) (tr : list event) : nat :=
  match tr with
  | [] => 0
  | ev :: tr' => ((if f ev then 1 else 0) + count_events f tr')%nat
  end.

Definition releases_stream (s : cudaStream_t) (ev : event) : bool :=
  match ev with
  | EvStreamDestroy s' _ => bool_decide (s' = s)
  | _ => false
  end.

Definition releases_handle (h : cublasHandle_t) (ev : event) : bool :=
  match ev with
  | EvBlasDestroy h' _ => bool_decide (h' = h)
  | _ => false
  end.

(** Worlds used as examples: the pool at address 0 after a completed
    [setup], and the same pool switched to default mode. *)
Definition pooled_world : World :=
  world_after (setup 0%nat 0) (fresh_world 1 []).

Definition default_world : World :=
  do_call (CallUseDefault 0%nat true) pooled_world.

(** The pooled example with work in flight: four units on the stream of
    slot 2 and seven on the stream of slot 10. *)
Definition busy_world : World :=
  do_call (CallSubmit 20%nat 7) (do_call (CallSubmit 12%nat 4) pooled_world).

(** A pool object that [setup] has never run on, in default mode. *)
Definition uninitialized_world : World :=
  mkWorld {[ 0%nat := mkPool 0 true None None ]} 1 ∅ None
    (fresh_device 1 []) 1000 2000.

(** [setup] meets a failure at its fourth create call. *)
Definition failing_world : World := fresh_world 1 [false; false; false; true].

(** A schedule: thread 0 is the first to ask for device 0 and then for
    device 1; each time it misses on the unlocked lookup, takes the mutex,
    constructs and inserts the pool.  Somebody waits on pool 0, and
    thread 0 asks for device 0 again.  Then thread 1 asks for device 0:
    nothing orders its unlocked lookup after the insertions of thread 0. *)
Definition first_touch_race : list sched :=
  [Begin 0 0; Step 0; Step 0; Step 0; Step 0; Step 0; Step 0; Finish 0;
   Begin 0 1; Step 0; Step 0; Step 0; Step 0; Step 0; Step 0; Finish 0;
   Use (CallSync 0%nat 3);
   Begin 0 0; Step 0; Step 0; Finish 0;
   Begin 1 0; Step 1].

Definition after_race : System :=
  default (boot (fresh_device 2 []) 1000 2000)
    (exec first_touch_race (boot (fresh_device 2 []) 1000 2000)).

(** The runtime calls a completed [setup] makes for slot after slot. *)
Definition setup_calls (ss : list cudaStream_t) (hs : list cublasHandle_t)
  : list event :=
  mjoin (zip_with
           (fun s h => [EvStreamCreate (Some s); EvBlasCreate (Some h);
                        EvSetStream h s CUBLAS_STATUS_SUCCESS]) ss hs).

Definition is_synchronize (ev : event) : bool :=
  match ev with
  | EvStreamSynchronize _ _ => true
  | _ => false
  end.

(** What [cudaStreamSynchronize(s)] reports in the runtime state [D]. *)
Definition sync_status (D : Device) (s : cudaStream_t) : cudaError_t :=
  if decide (s ∈ dev_streams D) then cudaSuccess
  else cudaErrorInvalidResourceHandle.

(** The selected device and the number of devices stay as they are. *)
Definition same_selection (w w' : World) : Prop :=
  dev_current (gpu w') = dev_current (gpu w) /\
  dev_count (gpu w') = dev_count (gpu w).

(** The pooled example after somebody else released the stream of slot 1
    behind the pool's back. *)
Definition stale_world : World :=
  with_gpu (snd (cudaStreamDestroy 11%nat (gpu pooled_world))) pooled_world.

(** A process with two accelerators and nothing looked up yet, and the same
    process when the second create call of the next [setup] will fail. *)
Definition cold_world : World := boot_world (fresh_device 2 []) 1000 2000.




(** What the next action of a thread touches; [None] when the thread is
    not inside a call or has no action left. *)
Definition next_access (st : thread) : option access :=
  match st with
  | Calling _ (Atomic act _) => Some (touches act)
  | _ => None
  end.

(** The process of the examples at its start: two accelerators. *)
Definition cold_start : System := boot (fresh_device 2 []) 1000 2000.

(** Two threads ask for device 0 at the same time, both as their first
    call: both miss on the unlocked lookup of line 68, then thread 0 takes
    the mutex, constructs the pool and reaches the insertion of line 74. *)
Definition overlapping_first_touch : list sched :=
  [Begin 0 0; Begin 1 0; Step 0; Step 1; Step 0; Step 0; Step 0; Step 0].

(** Thread 0 asks for device 0 and has returned before thread 1 asks for
    device 0, without anything that orders the two calls. *)
Definition late_lookup : list sched :=
  [Begin 0 0; Step 0; Step 0; Step 0; Step 0; Step 0; Step 0; Finish 0;
   Begin 1 0; Step 1].

(** The same two calls when the callers order them: thread 1 calls after
    it has learnt that the call of thread 0 is over. *)
Definition ordered_lookup : list sched :=
  [Begin 0 0; Step 0; Step 0; Step 0; Step 0; Step 0; Step 0; Finish 0;
   Sync 0 1;
   Begin 1 0; Step 1; Step 1; Finish 1].

(** * Properties *)

(** ** Running computations *)

Lemma bind_ok {A B} (c : M A) (k : A -> M B) w a w1 :
  c w = (Ok a, w1) -> bind c k w = k a w1.
Proof. intros H. unfold bind. now rewrite H. Qed.

Lemma bind_inv {A B} (c : M A) (k : A -> M B) w r w' :
  bind c k w = (r, w') ->
  (exists a w1, c w = (Ok a, w1) /\ k a w1 = (r, w')) \/
  (c w = (Undefined, w') /\ r = Undefined) \/
  (exists e, c w = (Raised e, w') /\ r = Raised e).
Proof.
  unfold bind. destruct (c w) as [[a|e|] w1]; intros H.
  - left. eauto.
  - right. right. exists e. now inversion H.
  - right. left. now inversion H.
Qed.

Lemma with_gpu_id w : with_gpu (gpu w) w = w.
Proof. now destruct w. Qed.

Lemma with_gpu_twice D1 D2 w : with_gpu D2 (with_gpu D1 w) = with_gpu D2 w.
Proof. reflexivity. Qed.

Lemma load_ok this o w : heap w !! this = Some o -> load this w = (Ok o, w).
Proof. intros H. unfold load. now rewrite H. Qed.

Lemma read_slot_ok {A} (l : list A) i x w :
  0 <= i -> l !! Z.to_nat i = Some x ->
  read_slot (Some (Some <$> l)) i w = (Ok x, w).
Proof.
  intros Hi Hx. unfold read_slot.
  destruct (Z.leb_spec 0 i); [|lia].
  now rewrite list_lookup_fmap, Hx.
Qed.

(** A slot index never leaves the array, and wrapping to [size_t] does not
    change the slot: 16 divides 2^64. *)
Lemma slot_range idx :
  0 <= to_size_t idx mod SMGR_N_STREAMS < SMGR_N_STREAMS.
Proof. apply Z.mod_pos_bound. reflexivity. Qed.

Lemma slot_wrap idx :
  to_size_t idx mod SMGR_N_STREAMS = idx mod SMGR_N_STREAMS.
Proof.
  unfold to_size_t, SIZE_T_MODULUS, SMGR_N_STREAMS.
  apply Z.mod_mod_divide. exists (2 ^ 60). reflexivity.
Qed.


(** ** The loops, one iteration at a time *)

Lemma sync_loop_exit this idx i :
  ~ (i < idx /\ i < SMGR_N_STREAMS) -> sync_loop this idx i = ret tt.
Proof.
  intros H. rewrite sync_loop_equation_1.
  destruct (decide _) as [Hc|Hc]; [contradiction | reflexivity].
Qed.

Lemma sync_loop_step this idx i :
  i < idx -> i < SMGR_N_STREAMS ->
  sync_loop this idx i =
  (self <- load this ;;
   s <- read_slot (streams self) i ;;
   rt (cudaStreamSynchronize s) ;;;
   sync_loop this idx (i + 1)).
Proof.
  intros H1 H2. rewrite sync_loop_equation_1.
  destruct (decide _) as [Hc|Hc]; [reflexivity | exfalso; auto].
Qed.

Lemma setup_loop_exit this i :
  ~ i < SMGR_N_STREAMS -> setup_loop this i = ret tt.
Proof.
  intros H. rewrite setup_loop_equation_1.
  destruct (decide _) as [Hc|Hc]; [contradiction | reflexivity].
Qed.

Lemma setup_loop_step this i :
  i < SMGR_N_STREAMS ->
  setup_loop this i =
  (self <- load this ;;
   created <- rt cudaStreamCreate ;;
   let '(r, out) := created in
   store this (set_streams (write_slot (streams self) i out) self) ;;;
   checkCudaErrors r ;;;
   self <- load this ;;
   created <- rt cublasCreate ;;
   let '(r, out) := created in
   store this (set_handles (write_slot (handles self) i out) self) ;;;
   checkCudaErrors r ;;;
   self <- load this ;;
   h <- read_slot (handles self) i ;;
   s <- read_slot (streams self) i ;;
   rt (cublasSetStream h s) ;;;
   setup_loop this (i + 1)).
Proof.
  intros H. rewrite setup_loop_equation_1.
  destruct (decide _) as [Hc|Hc]; [reflexivity | exfalso; auto].
Qed.

Lemma destroy_loop_exit this i :
  ~ i < SMGR_N_STREAMS -> destroy_loop this i = ret tt.
Proof.
  intros H. rewrite destroy_loop_equation_1.
  destruct (decide _) as [Hc|Hc]; [contradiction | reflexivity].
Qed.

Lemma destroy_loop_step this i :
  i < SMGR_N_STREAMS ->
  destroy_loop this i =
  (self <- load this ;;
   s <- read_slot (streams self) i ;;
   r <- rt (cudaStreamDestroy s) ;;
   checkCudaErrors r ;;;
   h <- read_slot (handles self) i ;;
   r <- rt (cublasDestroy h) ;;
   checkCudaErrors r ;;;
   destroy_loop this (i + 1)).
Proof.
  intros H. rewrite destroy_loop_equation_1.
  destruct (decide _) as [Hc|Hc]; [reflexivity | exfalso; auto].
Qed.

(** ** sync *)

Lemma sync_loop_run this o ss idx :
  streams o = Some (Some <$> ss) ->
  length ss = Z.to_nat SMGR_N_STREAMS ->
  forall n i w,
    n = Z.to_nat (SMGR_N_STREAMS - i) -> 0 <= i ->
    heap w !! this = Some o ->
    sync_loop this idx i w =
    (Ok tt,
     with_gpu
       (synchronize_all
          (take (Z.to_nat (Z.min idx SMGR_N_STREAMS - i))
             (drop (Z.to_nat i) ss)) (gpu w)) w).
Proof.
  intros Hs Hlen n. induction n as [n IH] using lt_wf_ind.
  intros i w Hn Hi Ho.
  destruct (decide (i < idx /\ i < SMGR_N_STREAMS)) as [[H1 H2]|Hc].
  - destruct (lookup_lt_is_Some_2 ss (Z.to_nat i)) as [s Hsi]; [lia|].
    rewrite sync_loop_step by assumption.
    rewrite (bind_ok _ _ _ _ _ (load_ok _ _ _ Ho)), Hs.
    rewrite (bind_ok _ _ _ _ _ (read_slot_ok _ _ _ _ Hi Hsi)).
    unfold bind at 1, rt at 1.
    destruct (cudaStreamSynchronize s (gpu w)) as [r D1] eqn:HD.
    rewrite (IH (Z.to_nat (SMGR_N_STREAMS - (i + 1)))) with (i := i + 1)
      by (simpl; auto; lia).
    rewrite with_gpu_twice. simpl gpu.
    replace (Z.to_nat (Z.min idx SMGR_N_STREAMS - i))
      with (S (Z.to_nat (Z.min idx SMGR_N_STREAMS - (i + 1)))) by lia.
    rewrite (drop_S _ _ _ Hsi). simpl take.
    replace (Z.to_nat (i + 1)) with (S (Z.to_nat i)) by lia.
    unfold synchronize_all. simpl foldl. now rewrite HD.
  - rewrite sync_loop_exit by assumption.
    replace (Z.to_nat (Z.min idx SMGR_N_STREAMS - i)) with 0%nat by lia.
    simpl. unfold synchronize_all. simpl. now rewrite with_gpu_id.
Qed.

(** ** setup *)

Lemma rt_run {A} (f : Device -> A * Device) w a D :
  f (gpu w) = (a, D) -> rt f w = (Ok a, with_gpu D w).
Proof. intros H. unfold rt. now rewrite H. Qed.

Lemma store_run this o w :
  store this o w = (Ok tt, with_heap (<[ this := o ]> (heap w)) w).
Proof. reflexivity. Qed.

Lemma check_cuda_ok w : checkCudaErrors cudaSuccess w = (Ok tt, w).
Proof. reflexivity. Qed.

Lemma check_cublas_ok w :
  checkCudaErrors CUBLAS_STATUS_SUCCESS w = (Ok tt, w).
Proof. reflexivity. Qed.

Lemma read_slot_written {A} (l : list (option A)) i x w :
  0 <= i -> l !! Z.to_nat i = Some (Some x) ->
  read_slot (Some l) i w = (Ok x, w).
Proof.
  intros Hi Hx. unfold read_slot.
  destruct (Z.leb_spec 0 i); [|lia]. now rewrite Hx.
Qed.

Lemma cublasSetStream_live h s D :
  h ∈ dev_handles D ->
  cublasSetStream h s D =
  (CUBLAS_STATUS_SUCCESS,
   mkDevice (dev_count D) (dev_current D) (dev_next_stream D)
     (dev_next_handle D) (dev_streams D) (dev_handles D)
     (<[ h := s ]> (dev_bound D)) (dev_pending D) (dev_faults D)
     (dev_trace D ++ [EvSetStream h s CUBLAS_STATUS_SUCCESS])).
Proof. intros H. unfold cublasSetStream. now rewrite decide_True. Qed.

Lemma cudaStreamCreate_cases D :
  (exists fs, cudaStreamCreate D =
     (cudaErrorMemoryAllocation, None,
      mkDevice (dev_count D) (dev_current D) (dev_next_stream D)
        (dev_next_handle D) (dev_streams D) (dev_handles D) (dev_bound D)
        (dev_pending D) fs (dev_trace D ++ [EvStreamCreate None]))) \/
  (exists fs, cudaStreamCreate D =
     (cudaSuccess, Some (dev_next_stream D),
      mkDevice (dev_count D) (dev_current D) (S (dev_next_stream D))
        (dev_next_handle D) ({[ dev_next_stream D ]} ∪ dev_streams D)
        (dev_handles D) (dev_bound D) (dev_pending D) fs
        (dev_trace D ++ [EvStreamCreate (Some (dev_next_stream D))]))).
Proof.
  unfold cudaStreamCreate, next_fault.
  destruct (dev_faults D) as [|[|] fs]; simpl; eauto.
Qed.

Lemma cublasCreate_cases D :
  (exists fs, cublasCreate D =
     (CUBLAS_STATUS_ALLOC_FAILED, None,
      mkDevice (dev_count D) (dev_current D) (dev_next_stream D)
        (dev_next_handle D) (dev_streams D) (dev_handles D) (dev_bound D)
        (dev_pending D) fs (dev_trace D ++ [EvBlasCreate None]))) \/
  (exists fs, cublasCreate D =
     (CUBLAS_STATUS_SUCCESS, Some (dev_next_handle D),
      mkDevice (dev_count D) (dev_current D) (dev_next_stream D)
        (S (dev_next_handle D)) (dev_streams D)
        ({[ dev_next_handle D ]} ∪ dev_handles D) (dev_bound D)
        (dev_pending D) fs
        (dev_trace D ++ [EvBlasCreate (Some (dev_next_handle D))]))).
Proof.
  unfold cublasCreate, next_fault.
  destruct (dev_faults D) as [|[|] fs]; simpl; eauto.
Qed.

Lemma setup_iter this i w o ls lh :
  0 <= i < SMGR_N_STREAMS ->
  heap w !! this = Some o -> streams o = Some ls -> handles o = Some lh ->
  (Z.to_nat i < length ls)%nat -> (Z.to_nat i < length lh)%nat ->
  (exists w1 e ev, setup_loop this i w = (Raised e, w1) /\
      setup_frame this w w1 /\ failed_call ev e /\
      exists tr, dev_trace (gpu w1) = dev_trace (gpu w) ++ tr ++ [ev]) \/
  (exists w1 s h, setup_loop this i w = setup_loop this (i + 1) w1 /\
      setup_iteration this i o ls lh s h w w1).
Proof.
  intros Hi Ho Hls Hlh Hlen1 Hlen2.
  rewrite setup_loop_step by lia.
  rewrite (bind_ok _ _ _ _ _ (load_ok _ _ _ Ho)).
  destruct (cudaStreamCreate_cases (gpu w)) as [[fs HD]|[fs HD]];
    rewrite (bind_ok _ _ _ _ _ (rt_run _ _ _ _ HD)); cbv beta iota;
    rewrite (bind_ok _ _ _ _ _ (store_run _ _ _)).
  - left. eexists _, _, (EvStreamCreate None). split; [reflexivity|].
    split; [|split; [reflexivity | exists []; reflexivity]].
    destruct o as [od ou os oh]; simpl in *; subst.
    split; simpl; try done.
    + exists (mkPool od ou (Some ls) (Some lh)). split; [done|].
      intros o Ho'. rewrite Ho in Ho'. now inversion Ho'.
    + exists [EvStreamCreate None]. split; [done|]. split; [|split].
      * intros ev ->%list_elem_of_singleton. done.
      * intros s Hs%list_elem_of_singleton. done.
      * intros s Hs%list_elem_of_singleton. done.
  - rewrite (bind_ok _ _ _ _ _ (check_cuda_ok _)).
    destruct o as [od ou os oh]; simpl in *; subst.
    match goal with |- context [bind (load this) _ ?w1] =>
      set (wa := w1) end.
    assert (Hoa : heap wa !! this =
              Some (mkPool od ou
                      (Some (<[ Z.to_nat i := Some (dev_next_stream (gpu w)) ]> ls))
                      (Some lh)))
      by (subst wa; simpl; apply lookup_insert_eq).
    rewrite (bind_ok _ _ _ _ _ (load_ok _ _ _ Hoa)).
    destruct (cublasCreate_cases (gpu wa)) as [[fs' HD']|[fs' HD']];
      rewrite (bind_ok _ _ _ _ _ (rt_run _ _ _ _ HD')); cbv beta iota;
      rewrite (bind_ok _ _ _ _ _ (store_run _ _ _)).
    + left. eexists _, _, (EvBlasCreate None). split; [reflexivity|].
      split; [|split; [reflexivity|]].
      * split; simpl; try done.
        -- eexists. split; [apply insert_insert_eq|].
           intros o Ho'. rewrite Ho in Ho'. now inversion Ho'.
        -- set_solver.
        -- exists [EvStreamCreate (Some (dev_next_stream (gpu w)));
                   EvBlasCreate None].
           split; [now rewrite <- app_assoc|]. split; [|split].
           ++ intros ev Hev. set_solver.
           ++ intros s Hs. set_solver.
           ++ intros s Hs. set_solver.
      * exists [EvStreamCreate (Some (dev_next_stream (gpu w)))].
        simpl. now rewrite <- app_assoc.
    + right.
      rewrite (bind_ok _ _ _ _ _ (check_cublas_ok _)).
      match goal with |- context [bind (load this) _ ?w1] =>
        set (wb := w1) end.
      assert (Hob : heap wb !! this =
                Some (mkPool od ou
                        (Some (<[ Z.to_nat i := Some (dev_next_stream (gpu w)) ]> ls))
                        (Some (<[ Z.to_nat i := Some (dev_next_handle (gpu w)) ]> lh))))
        by (subst wb; simpl; apply lookup_insert_eq).
      rewrite (bind_ok _ _ _ _ _ (load_ok _ _ _ Hob)).
      cbn [handles streams].
      rewrite (bind_ok _ _ _ _ _
                 (read_slot_written _ i (dev_next_handle (gpu w)) _
                    (proj1 Hi) (list_lookup_insert_eq _ _ _ Hlen2))).
      rewrite (bind_ok _ _ _ _ _
                 (read_slot_written _ i (dev_next_stream (gpu w)) _
                    (proj1 Hi) (list_lookup_insert_eq _ _ _ Hlen1))).
      assert (Hlive : dev_next_handle (gpu w) ∈ dev_handles (gpu wb))
        by (subst wb wa; simpl; set_solver).
      rewrite (bind_ok _ _ _ _ _
                 (rt_run _ _ _ _
                    (cublasSetStream_live _ (dev_next_stream (gpu w)) _ Hlive))).
      eexists _, (dev_next_stream (gpu w)), (dev_next_handle (gpu w)).
      split; [reflexivity|].
      subst wb wa. split; simpl; try done.
      * now rewrite !insert_insert_eq.
      * now rewrite <- !app_assoc.
Qed.

Lemma same_host_refl w : same_host w w.
Proof. now split. Qed.

Lemma same_host_trans w1 w2 w3 :
  same_host w1 w2 -> same_host w2 w3 -> same_host w1 w3.
Proof. intros [] []. split; congruence. Qed.

Lemma setup_frame_refl this w o :
  heap w !! this = Some o -> setup_frame this w w.
Proof.
  intros Ho. split; try done.
  - exists o. split; [now rewrite insert_id|].
    intros o' Ho'. rewrite Ho in Ho'. now inversion Ho'.
  - exists []. split; [now rewrite app_nil_r|].
    split; [|split]; intros ? H; now apply elem_of_nil in H.
Qed.

Lemma setup_frame_trans this w1 w2 w3 o :
  heap w1 !! this = Some o ->
  setup_frame this w1 w2 -> setup_frame this w2 w3 ->
  setup_frame this w1 w3.
Proof.
  intros Ho [H1 (o2 & Hh2 & Ho2) P1 S1 L1 N1 B1 (tr1 & T1 & R1 & CS1 & CH1)]
            [H2 (o3 & Hh3 & Ho3) P2 S2 L2 N2 B2 (tr2 & T2 & R2 & CS2 & CH2)].
  split.
  - eapply same_host_trans; eassumption.
  - exists o3. split.
    + now rewrite Hh3, Hh2, insert_insert_eq.
    + intros o' Ho'. rewrite Ho in Ho'. inversion Ho'; subst o'.
      destruct (Ho2 _ Ho) as [Hd Hu].
      destruct (Ho3 o2) as [Hd' Hu']; [rewrite Hh2; apply lookup_insert_eq|].
      split; congruence.
  - congruence.
  - etransitivity; eassumption.
  - etransitivity; eassumption.
  - lia.
  - intros h Hh. rewrite B2 by lia. now apply B1.
  - exists (tr1 ++ tr2). split; [now rewrite T2, T1, app_assoc|].
    split; [|split].
    + intros ev [?|?]%elem_of_app; auto.
    + intros s [?|?]%elem_of_app; auto.
    + intros h [?|?]%elem_of_app; auto.
Qed.

Lemma setup_iteration_frame this i o ls lh s h w w1 :
  heap w !! this = Some o ->
  setup_iteration this i o ls lh s h w w1 -> setup_frame this w w1.
Proof.
  intros Ho [Hh Hheap Hs Hhd Hns Hnh Hst Hha Hb Hp Ht]. split; try done.
  - eexists. split; [exact Hheap|].
    intros o' Ho'. rewrite Ho in Ho'. now inversion Ho'.
  - rewrite Hst. apply union_subseteq_r.
  - rewrite Hha. apply union_subseteq_r.
  - lia.
  - intros h' Hh'. rewrite Hb. apply lookup_insert_ne. lia.
  - eexists. split; [exact Ht|]. split; [|split].
    + intros ev Hev. repeat (apply elem_of_cons in Hev as [->|Hev]; [done|]).
      now apply elem_of_nil in Hev.
    + intros s' Hs'. rewrite Hst.
      apply elem_of_cons in Hs' as [Heq|Hs']; [inversion Heq; set_solver|].
      apply elem_of_cons in Hs' as [Heq|Hs']; [inversion Heq|].
      apply elem_of_cons in Hs' as [Heq|Hs']; [inversion Heq|].
      now apply elem_of_nil in Hs'.
    + intros h' Hh'. rewrite Hha.
      apply elem_of_cons in Hh' as [Heq|Hh']; [inversion Heq|].
      apply elem_of_cons in Hh' as [Heq|Hh']; [inversion Heq; set_solver|].
      apply elem_of_cons in Hh' as [Heq|Hh']; [inversion Heq|].
      now apply elem_of_nil in Hh'.
Qed.

(** However the loop of [setup] ends, it does not run into undefined
    behaviour, it stays within the frame, and an error comes from the last
    runtime call made. *)
Lemma setup_loop_frame this :
  forall n i w o ls lh,
    n = Z.to_nat (SMGR_N_STREAMS - i) -> 0 <= i ->
    heap w !! this = Some o -> streams o = Some ls -> handles o = Some lh ->
    length ls = Z.to_nat SMGR_N_STREAMS ->
    length lh = Z.to_nat SMGR_N_STREAMS ->
    forall r w', setup_loop this i w = (r, w') ->
      r <> Undefined /\ setup_frame this w w' /\
      (forall e, r = Raised e ->
         exists tr ev, dev_trace (gpu w') = dev_trace (gpu w) ++ tr ++ [ev] /\
                       failed_call ev e).
Proof.
  induction n as [n IH] using lt_wf_ind.
  intros i w o ls lh Hn Hi Ho Hls Hlh Hlen1 Hlen2 r w' Hrun.
  destruct (decide (i < SMGR_N_STREAMS)) as [Hlt|Hge].
  - destruct (setup_iter this i w o ls lh) as
      [(w1 & e & ev & Hfail & Hfr & Hev & tr & Htr)
      |(w1 & s & h & Hnext & Hit)]; try done; try lia.
    + rewrite Hfail in Hrun. inversion Hrun; subst r w'.
      split; [done|]. split; [done|].
      intros e' He'. inversion He'; subst e'. eauto.
    + rewrite Hnext in Hrun.
      pose proof (setup_iteration_frame _ _ _ _ _ _ _ _ _ Ho Hit) as Hfr.
      destruct Hit as [Hh Hheap Hs Hhd Hns Hnh Hst Hha Hb Hp Ht].
      edestruct (IH (Z.to_nat (SMGR_N_STREAMS - (i + 1)))) with (i := i + 1)
        as (Hr & Hfr' & Hlast); [lia|reflexivity|lia| | | | | |exact Hrun|].
      * rewrite Hheap. apply lookup_insert_eq.
      * reflexivity.
      * reflexivity.
      * now rewrite length_insert.
      * now rewrite length_insert.
      * split; [done|]. split.
        -- eapply setup_frame_trans; eassumption.
        -- intros e He. destruct (Hlast e He) as (tr & ev & Htr & Hev).
           exists ([EvStreamCreate (Some s); EvBlasCreate (Some h);
                    EvSetStream h s CUBLAS_STATUS_SUCCESS] ++ tr), ev.
           split; [|exact Hev].
           rewrite Htr, Ht. now rewrite <- !app_assoc.
  - rewrite setup_loop_exit in Hrun by assumption.
    inversion Hrun; subst r w'. split; [done|]. split.
    + eapply setup_frame_refl; eassumption.
    + intros e He. inversion He.
Qed.

Lemma setup_progress_next this i o ls lh s h ss hs w w1 :
  0 <= i < SMGR_N_STREAMS ->
  heap w !! this = Some o -> streams o = Some ls -> handles o = Some lh ->
  setup_progress this (Z.to_nat i) ss hs w ->
  setup_iteration this i o ls lh s h w w1 ->
  setup_progress this (Z.to_nat (i + 1)) (ss ++ [s]) (hs ++ [h]) w1.
Proof.
  intros Hi Ho Hls Hlh [(o' & ls' & lh' & Ho' & Hls' & Hlh' & Hl1 & Hl2 & Ht1 & Ht2)
                          Hal Hnd1 Hnd2 Hst Hha Hbd]
         [Hh Hheap Hs Hhd Hns Hnh Hsts Hhas Hb Hp Htr].
  rewrite Ho in Ho'. inversion Ho'; subst o'.
  rewrite Hls in Hls'. inversion Hls'; subst ls'.
  rewrite Hlh in Hlh'. inversion Hlh'; subst lh'.
  assert (Hlen1 : length ss = Z.to_nat i).
  { rewrite <- (length_fmap Some ss), <- Ht1, length_take. lia. }
  assert (Hlen2 : length hs = Z.to_nat i).
  { rewrite <- (length_fmap Some hs), <- Ht2, length_take. lia. }
  replace (Z.to_nat (i + 1)) with (S (Z.to_nat i)) by lia.
  split.
  - eexists _, _, _. split; [rewrite Hheap; apply lookup_insert_eq|].
    split; [reflexivity|]. split; [reflexivity|].
    rewrite !length_insert. split; [done|]. split; [done|]. split.
    + rewrite (take_S_r _ _ (Some s))
        by (apply list_lookup_insert_eq; lia).
      rewrite take_insert_ge by lia. now rewrite Ht1, fmap_app.
    + rewrite (take_S_r _ _ (Some h))
        by (apply list_lookup_insert_eq; lia).
      rewrite take_insert_ge by lia. now rewrite Ht2, fmap_app.
  - destruct Hh as [-> _ _ _ _]. exact Hal.
  - apply NoDup_app. split; [done|]. split; [|apply NoDup_singleton].
    intros x Hx ->%list_elem_of_singleton.
    destruct (Hst _ Hx) as (_ & Hlt & _). lia.
  - apply NoDup_app. split; [done|]. split; [|apply NoDup_singleton].
    intros x Hx ->%list_elem_of_singleton.
    destruct (Hha _ Hx) as (_ & Hlt & _). lia.
  - intros x. rewrite Hsts, Hns, Htr.
    intros [Hx| ->%list_elem_of_singleton]%elem_of_app.
    + destruct (Hst _ Hx) as (H1 & H2 & H3).
      split; [set_solver|]. split; [lia|]. apply elem_of_app. now left.
    + split; [set_solver|]. split; [lia|].
      apply elem_of_app. right. apply elem_of_cons. now left.
  - intros x. rewrite Hhas, Hnh, Htr.
    intros [Hx| ->%list_elem_of_singleton]%elem_of_app.
    + destruct (Hha _ Hx) as (H1 & H2 & H3).
      split; [set_solver|]. split; [lia|]. apply elem_of_app. now left.
    + split; [set_solver|]. split; [lia|].
      apply elem_of_app. right. apply elem_of_cons. right.
      apply elem_of_cons. now left.
  - intros j h' s' Hj1 Hj2. rewrite Hb.
    apply lookup_app_Some in Hj1 as [Hj1|[Hge Hj1]].
    + assert (Hjlt : (j < length ss)%nat)
        by (apply lookup_lt_Some in Hj1; lia).
      rewrite lookup_app_l in Hj2 by exact Hjlt.
      destruct (Hha h') as (_ & Hlt & _);
        [apply list_elem_of_lookup; eauto|].
      rewrite lookup_insert_ne by lia. eauto.
    + apply list_lookup_singleton_Some in Hj1 as [Hj0 <-].
      rewrite lookup_app_r in Hj2 by lia.
      apply list_lookup_singleton_Some in Hj2 as [_ <-].
      apply lookup_insert_eq.
Qed.

(** When the loop of [setup] runs to its end the pool is live. *)
Lemma setup_loop_live this :
  forall n i w ss hs,
    n = Z.to_nat (SMGR_N_STREAMS - i) -> 0 <= i <= SMGR_N_STREAMS ->
    setup_progress this (Z.to_nat i) ss hs w ->
    forall w', setup_loop this i w = (Ok tt, w') ->
      exists ss' hs', pool_live this ss' hs' w'.
Proof.
  induction n as [n IH] using lt_wf_ind.
  intros i w ss hs Hn Hi Hsp w' Hrun.
  destruct (decide (i < SMGR_N_STREAMS)) as [Hlt|Hge].
  - pose proof Hsp as
      [(o & ls & lh & Ho & Hls & Hlh & Hl1 & Hl2 & Ht1 & Ht2) _ _ _ _ _ _].
    destruct (setup_iter this i w o ls lh) as
      [(w1 & e & ev & Hfail & _)|(w1 & s & h & Hnext & Hit)];
      try done; try lia.
    + rewrite Hfail in Hrun. inversion Hrun.
    + rewrite Hnext in Hrun.
      eapply (IH (Z.to_nat (SMGR_N_STREAMS - (i + 1)))) with (i := i + 1);
        [lia|reflexivity|lia| |exact Hrun].
      eapply setup_progress_next; try eassumption. lia.
  - rewrite setup_loop_exit in Hrun by assumption.
    inversion Hrun; subst w'.
    destruct Hsp as [(o & ls & lh & Ho & Hls & Hlh & Hl1 & Hl2 & Ht1 & Ht2)
                       Hal Hnd1 Hnd2 Hst Hha Hbd].
    assert (i = SMGR_N_STREAMS) as -> by lia.
    rewrite take_ge in Ht1 by lia. rewrite take_ge in Ht2 by lia.
    subst ls lh. rewrite length_fmap in Hl1, Hl2.
    exists ss, hs. split; try done.
    + eauto.
    + intros s Hs. destruct (Hst _ Hs) as (? & _ & ?). done.
Qed.

Lemma cudaSetDevice_cases d D :
  cudaSetDevice d D =
    (cudaSuccess,
     mkDevice (dev_count D) d (dev_next_stream D) (dev_next_handle D)
       (dev_streams D) (dev_handles D) (dev_bound D) (dev_pending D)
       (dev_faults D) (dev_trace D ++ [EvSetDevice d cudaSuccess])) \/
  cudaSetDevice d D =
    (cudaErrorInvalidDevice, log (EvSetDevice d cudaErrorInvalidDevice) D).
Proof.
  unfold cudaSetDevice. destruct (_ && _); [left | right]; reflexivity.
Qed.

(** [setup] up to its loop: the device id is written, the device
    selected, and two arrays of unwritten slots allocated. *)
Lemma setup_unfold this d w o :
  heap w !! this = Some o ->
  (exists w1, setup this d w = (Raised (CudaError cudaErrorInvalidDevice), w1) /\
     same_host w w1 /\ heap w1 = <[ this := set_device d o ]> (heap w) /\
     gpu w1 = log (EvSetDevice d cudaErrorInvalidDevice) (gpu w)) \/
  (exists w1, setup this d w = setup_loop this 0 w1 /\
     same_host w w1 /\
     heap w1 = <[ this := mkPool d (use_default o)
                            (new_array SMGR_N_STREAMS)
                            (new_array SMGR_N_STREAMS) ]> (heap w) /\
     gpu w1 =
       mkDevice (dev_count (gpu w)) d (dev_next_stream (gpu w))
         (dev_next_handle (gpu w)) (dev_streams (gpu w))
         (dev_handles (gpu w)) (dev_bound (gpu w)) (dev_pending (gpu w))
         (dev_faults (gpu w))
         (dev_trace (gpu w) ++ [EvSetDevice d cudaSuccess])).
Proof.
  intros Ho. unfold setup.
  rewrite (bind_ok _ _ _ _ _ (load_ok _ _ _ Ho)).
  rewrite (bind_ok _ _ _ _ _ (store_run _ _ _)).
  destruct (cudaSetDevice_cases d (gpu w)) as [HD|HD].
  - right.
    rewrite (bind_ok _ _ _ _ _ (rt_run _ (with_heap _ w) _ _ HD)).
    rewrite (bind_ok _ _ _ _ _ (check_cuda_ok _)).
    match goal with |- context [bind (load this) _ ?w1] =>
      set (wa := w1) end.
    assert (Hoa : heap wa !! this = Some (set_device d o))
      by (subst wa; simpl; apply lookup_insert_eq).
    rewrite (bind_ok _ _ _ _ _ (load_ok _ _ _ Hoa)).
    rewrite (bind_ok _ _ _ _ _ (store_run _ _ _)).
    match goal with |- context [bind (load this) _ ?w1] =>
      set (wb := w1) end.
    assert (Hob : heap wb !! this =
              Some (set_streams (new_array SMGR_N_STREAMS) (set_device d o)))
      by (subst wb; simpl; apply lookup_insert_eq).
    rewrite (bind_ok _ _ _ _ _ (load_ok _ _ _ Hob)).
    rewrite (bind_ok _ _ _ _ _ (store_run _ _ _)).
    eexists. split; [reflexivity|]. subst wb wa. simpl.
    split; [now split|]. split; [|reflexivity].
    now rewrite !insert_insert_eq.
  - left.
    rewrite (bind_ok _ _ _ _ _ (rt_run _ (with_heap _ w) _ _ HD)).
    eexists. split; [reflexivity|]. simpl. split; [now split|]. done.
Qed.

(** [setup] that completes makes the pool live. *)
Lemma setup_live this d w0 o w :
  heap w0 !! this = Some o -> (this < next_ptr w0)%nat ->
  setup this d w0 = (Ok tt, w) ->
  exists ss hs, pool_live this ss hs w.
Proof.
  intros Ho Hal Hrun.
  destruct (setup_unfold this d w0 o Ho) as
    [(w1 & Hfail & _)|(w1 & Hnext & Hh & Hheap & Hgpu)].
  - rewrite Hfail in Hrun. inversion Hrun.
  - rewrite Hnext in Hrun.
    eapply (setup_loop_live this _ 0 w1 [] []);
      [reflexivity|unfold SMGR_N_STREAMS; lia| |exact Hrun].
    split; simpl.
    + eexists _, _, _. split; [rewrite Hheap; apply lookup_insert_eq|].
      split; [reflexivity|]. split; [reflexivity|].
      rewrite !length_replicate. done.
    + destruct Hh as [-> _ _ _ _]. exact Hal.
    + apply NoDup_nil_2.
    + apply NoDup_nil_2.
    + intros s Hs. now apply elem_of_nil in Hs.
    + intros s Hs. now apply elem_of_nil in Hs.
    + intros j h s Hj. now rewrite lookup_nil in Hj.
Qed.

(** [setup], however it ends: no undefined behaviour; seen from the world
    in which the device id has been written, it stays within the frame;
    and an error comes from the last runtime call made. *)
Lemma setup_outcome this d w o r w' :
  heap w !! this = Some o ->
  setup this d w = (r, w') ->
  r <> Undefined /\
  setup_frame this (with_heap (<[ this := set_device d o ]> (heap w)) w) w' /\
  (forall e, r = Raised e ->
     exists tr ev, dev_trace (gpu w') = dev_trace (gpu w) ++ tr ++ [ev] /\
                   failed_call ev e).
Proof.
  intros Ho Hrun.
  destruct (setup_unfold this d w o Ho) as
    [(w1 & Hfail & Hh & Hheap & Hgpu)|(w1 & Hnext & Hh & Hheap & Hgpu)].
  - rewrite Hfail in Hrun. inversion Hrun; subst r w'.
    split; [done|]. split.
    + split; simpl; try done; try (rewrite Hgpu; done).
      * destruct Hh. now split.
      * exists (set_device d o). split; [now rewrite insert_insert_eq|].
        intros o' Ho'. rewrite lookup_insert_eq in Ho'. now inversion Ho'.
      * rewrite Hgpu. simpl. eexists. split; [reflexivity|].
        split; [|split]; intros x Hx;
          apply list_elem_of_singleton in Hx; now inversion Hx.
    + intros e He. inversion He; subst e.
      exists [], (EvSetDevice d cudaErrorInvalidDevice).
      rewrite Hgpu. simpl. split; [reflexivity|]. split; done.
  - rewrite Hnext in Hrun.
    assert (Ho1 : heap w1 !! this =
              Some (mkPool d (use_default o) (new_array SMGR_N_STREAMS)
                      (new_array SMGR_N_STREAMS)))
      by (rewrite Hheap; apply lookup_insert_eq).
    destruct (setup_loop_frame this _ 0 w1 _ _ _ eq_refl (Z.le_refl 0)
                Ho1 eq_refl eq_refl
                (length_replicate _ _) (length_replicate _ _) r w' Hrun)
      as (Hr & Hfr & Hlast).
    split; [done|]. split.
    + eapply setup_frame_trans; [apply lookup_insert_eq| |exact Hfr].
      split; simpl; try done; try (rewrite Hgpu; done).
      * destruct Hh. now split.
      * eexists. split; [now rewrite Hheap, insert_insert_eq|].
        intros o' Ho'. rewrite lookup_insert_eq in Ho'. now inversion Ho'.
      * rewrite Hgpu. simpl. eexists. split; [reflexivity|].
        split; [|split]; intros x Hx;
          apply list_elem_of_singleton in Hx; now inversion Hx.
    + intros e He. destruct (Hlast e He) as (tr & ev & Htr & Hev).
      exists (EvSetDevice d cudaSuccess :: tr), ev. split; [|exact Hev].
      rewrite Htr, Hgpu. simpl. now rewrite <- app_assoc.
Qed.

(** ** Using pools leaves live pools live *)

Lemma steady_refl w : steady w w.
Proof.
  split; try done. exists []. now rewrite app_nil_r.
Qed.

Lemma steady_trans w1 w2 w3 : steady w1 w2 -> steady w2 w3 -> steady w1 w3.
Proof.
  intros [H1 P1 S1 L1 B1 N1 M1 (tr1 & T1)] [H2 P2 S2 L2 B2 N2 M2 (tr2 & T2)].
  split; [eapply same_host_trans; eassumption
         |intros p; now rewrite P2, P1
         |congruence..
         |exists (tr1 ++ tr2); now rewrite T2, T1, app_assoc].
Qed.

Lemma preserves_ret {A} (a : A) : preserves steady (ret a).
Proof. intros w r w' H. inversion H. apply steady_refl. Qed.

Lemma preserves_undefined {A} : preserves steady (@undefined A).
Proof. intros w r w' H. inversion H. apply steady_refl. Qed.

Lemma preserves_bind {A B} (c : M A) (k : A -> M B) :
  preserves steady c -> (forall a, preserves steady (k a)) ->
  preserves steady (bind c k).
Proof.
  intros Hc Hk w r w' H.
  apply bind_inv in H as [(a & w1 & H1 & H2)|[[H1 _]|(e & H1 & _)]].
  - eapply steady_trans; [eapply Hc | eapply Hk]; eassumption.
  - eapply Hc; eassumption.
  - eapply Hc; eassumption.
Qed.

Lemma preserves_load p : preserves steady (load p).
Proof.
  intros w r w' H. unfold load in H.
  destruct (heap w !! p); inversion H; apply steady_refl.
Qed.

Lemma preserves_read_slot {A} (arr : option (list (option A))) i :
  preserves steady (read_slot arr i).
Proof.
  unfold read_slot. destruct arr as [l|]; [|apply preserves_undefined].
  destruct (0 <=? i); [|apply preserves_undefined].
  destruct (l !! Z.to_nat i) as [[x|]|];
    [apply preserves_ret | apply preserves_undefined..].
Qed.

Lemma preserves_synchronize s :
  preserves steady (rt (cudaStreamSynchronize s)).
Proof.
  intros w r w' H. unfold rt, cudaStreamSynchronize in H.
  destruct (decide _); inversion H; subst; split; simpl; try done;
    eexists; reflexivity.
Qed.

Lemma preserves_sync_loop p idx :
  forall n i, n = Z.to_nat (SMGR_N_STREAMS - i) ->
    preserves steady (sync_loop p idx i).
Proof.
  induction n as [n IH] using lt_wf_ind. intros i Hn.
  destruct (decide (i < idx /\ i < SMGR_N_STREAMS)) as [[H1 H2]|Hc].
  - rewrite sync_loop_step by assumption.
    apply preserves_bind; [apply preserves_load|]. intros self.
    apply preserves_bind; [apply preserves_read_slot|]. intros s.
    apply preserves_bind; [apply preserves_synchronize|]. intros _.
    eapply IH; [|reflexivity]. lia.
  - rewrite sync_loop_exit by assumption. apply preserves_ret.
Qed.

Lemma preserves_sync p idx : preserves steady (sync p idx).
Proof.
  unfold sync. apply preserves_bind; [apply preserves_load|]. intros self.
  destruct (use_default self); [apply preserves_ret|].
  eapply preserves_sync_loop. reflexivity.
Qed.

(** The accessors change nothing at all. *)
Lemma stream_pure p idx w : world_after (stream p idx) w = w.
Proof.
  unfold world_after, stream, bind, load, getCurrentCUDAStream, read_slot.
  destruct (heap w !! p) as [o|]; [|reflexivity].
  destruct (use_default o); [reflexivity|].
  destruct (streams o) as [l|]; [|reflexivity].
  destruct (0 <=? _); [|reflexivity].
  destruct (l !! _) as [[x|]|]; reflexivity.
Qed.

Lemma handle_pure p idx w : world_after (handle p idx) w = w.
Proof.
  unfold world_after, handle, bind, load, getCurrentCUDABlasHandle, read_slot.
  destruct (heap w !! p) as [o|]; [|reflexivity].
  destruct (use_default o); [reflexivity|].
  destruct (handles o) as [l|]; [|reflexivity].
  destruct (0 <=? _); [|reflexivity].
  destruct (l !! _) as [[x|]|]; reflexivity.
Qed.

Lemma do_call_steady c w : steady w (do_call c w).
Proof.
  destruct c as [p idx|p idx|p idx|p b|s n]; simpl.
  - rewrite stream_pure. apply steady_refl.
  - rewrite handle_pure. apply steady_refl.
  - unfold world_after. destruct (sync p idx w) as [r w'] eqn:H.
    eapply preserves_sync; eassumption.
  - unfold world_after, write_use_default, bind, load, store.
    destruct (heap w !! p) as [o|] eqn:Ho; simpl; [|apply steady_refl].
    split; simpl; try done.
    + intros q. destruct (decide (p = q)) as [<-|Hne].
      * now rewrite lookup_insert_eq, Ho.
      * now rewrite lookup_insert_ne.
    + exists []. now rewrite app_nil_r.
  - split; simpl; try done. exists []. now rewrite app_nil_r.
Qed.

Lemma pool_live_steady this ss hs w w' :
  pool_live this ss hs w -> steady w w' -> pool_live this ss hs w'.
Proof.
  intros [(o & Ho & Hs & Hh) Hal Hl1 Hl2 Hn1 Hn2 Hst Hha Hb]
         [[Hnp _ _ _ _] Hheap Hsts Hhds Hbd Hns Hnh (tr & Htr)].
  split; try done.
  - specialize (Hheap this). rewrite Ho in Hheap.
    destruct (heap w' !! this) as [o'|]; [|done].
    simpl in Hheap. inversion Hheap as [[Hd Hs' Hh']].
    exists o'. split; [done|]. split; congruence.
  - lia.
  - intros s Hsin. destruct (Hst _ Hsin) as [H1 H2].
    rewrite Hsts, Htr. split; [done|]. apply elem_of_app. now left.
  - intros h Hhin. destruct (Hha _ Hhin) as (H1 & H2 & H3).
    rewrite Hhds, Hnh, Htr. split; [done|]. split; [done|].
    apply elem_of_app. now left.
  - intros j h s Hj1 Hj2. rewrite Hbd. eauto.
Qed.

(** Running [setup] on another pool leaves a live pool live. *)
Lemma pool_live_frame this p ss hs w w' :
  p <> this -> pool_live this ss hs w -> setup_frame p w w' ->
  pool_live this ss hs w'.
Proof.
  intros Hne [(o & Ho & Hs & Hh) Hal Hl1 Hl2 Hn1 Hn2 Hst Hha Hb]
         [[Hnp _ _ _ _] (o' & Hheap & _) Hp Hsts Hhds Hnh Hbd (tr & Htr & _)].
  split; try done.
  - exists o. split; [|done]. rewrite Hheap. now rewrite lookup_insert_ne.
  - lia.
  - intros s Hsin. destruct (Hst _ Hsin) as [H1 H2].
    rewrite Htr. split; [set_solver|]. apply elem_of_app. now left.
  - intros h Hhin. destruct (Hha _ Hhin) as (H1 & H2 & H3).
    rewrite Htr. split; [set_solver|]. split; [lia|].
    apply elem_of_app. now left.
  - intros j h s Hj1 Hj2. rewrite Hbd; [eauto|].
    destruct (Hha h) as (_ & Hlt & _); [|exact Hlt].
    apply list_elem_of_lookup. eauto.
Qed.

(** Constructing a pool, however that ends. *)
Lemma new_outcome d w r w' :
  new_CudaStreamManager d w = (r, w') ->
  r <> Undefined /\
  (forall p, r = Ok p -> p = next_ptr w) /\
  next_ptr w' = S (next_ptr w) /\
  smgrs w' = smgrs w /\ smgr_mtx w' = smgr_mtx w /\
  ((exists o', r = Ok (next_ptr w) /\
      heap w' = <[ next_ptr w := o' ]> (heap w) /\ device o' = d) \/
   ((exists e, r = Raised e) /\ heap w' = delete (next_ptr w) (heap w))) /\
  (forall this ss hs, pool_live this ss hs w -> pool_live this ss hs w') /\
  (forall p, r = Ok p -> exists ss hs, pool_live p ss hs w').
Proof.
  unfold new_CudaStreamManager. intros H.
  match type of H with context [setup _ _ ?w1] => set (wa := w1) in * end.
  assert (Hoa : heap wa !! next_ptr w = Some (mkPool d false None None))
    by (subst wa; simpl; apply lookup_insert_eq).
  destruct (setup (next_ptr w) d wa) as [r1 w1] eqn:Hsetup.
  destruct (setup_outcome _ _ _ _ _ _ Hoa Hsetup) as (Hr1 & Hfr & _).
  pose proof Hfr as [[Hnp Hsm Hmt _ _] (o' & Hheap & Ho') _ _ _ _ _ _].
  assert (Hkeep1 : forall this ss hs,
             pool_live this ss hs w -> pool_live this ss hs w1).
  { intros this ss hs Hlive.
    eapply (pool_live_frame this (next_ptr w)); [| |exact Hfr].
    - destruct Hlive. lia.
    - destruct Hlive as [(o & Ho & Hs & Hh) Hal Hl1 Hl2 Hn1 Hn2 Hst Hha Hb].
      subst wa. split; simpl; try done; [|lia].
      exists o. split; [|done].
      rewrite !lookup_insert_ne by lia. exact Ho. }
  assert (Hd' : device o' = d).
  { destruct (Ho' (set_device d (mkPool d false None None))) as [Hd _];
      [apply lookup_insert_eq|]. exact Hd. }
  assert (Hheap1 : heap w1 = <[ next_ptr w := o' ]> (heap w)).
  { rewrite Hheap. subst wa. simpl. now rewrite !insert_insert_eq. }
  subst wa. simpl in Hnp, Hsm, Hmt.
  destruct r1 as [[]|e|]; [| |now exfalso; apply Hr1];
    injection H as <- <-; simpl.
  - split; [done|]. split; [now intros p [= <-]|].
    repeat (split; [done|]). split; [left; eauto|].
    split; [exact Hkeep1|].
    intros p [= <-].
    eapply (setup_live (next_ptr w) d); [| |exact Hsetup].
    + apply lookup_insert_eq.
    + simpl. lia.
  - split; [done|]. split; [done|].
    repeat (split; [done|]). split.
    + right. split; [eauto|]. rewrite Hheap1. apply delete_insert_eq.
    + split; [|done]. intros this ss hs Hlive.
      pose proof (Hkeep1 _ _ _ Hlive) as [(o & Ho & Hs & Hh) Hal Hl1 Hl2 Hn1 Hn2 Hst Hha Hb].
      split; simpl; try done.
      exists o. split; [|done]. rewrite lookup_delete_ne; [exact Ho|].
      destruct Hlive. lia.
Qed.

(** A live pool has what [setup] established. *)
Lemma Live_pool_live this w :
  Live this w -> exists ss hs, pool_live this ss hs w.
Proof.
  induction 1 as [w0 o d w Ho Hal Hrun|c w _ (ss & hs & IH)|d w _ (ss & hs & IH)].
  - eapply setup_live; eassumption.
  - exists ss, hs. eapply pool_live_steady; [exact IH|apply do_call_steady].
  - exists ss, hs. unfold world_after.
    destruct (new_CudaStreamManager d w) as [r w'] eqn:Hnew.
    destruct (new_outcome _ _ _ _ Hnew) as (_ & _ & _ & _ & _ & _ & Hkeep & _).
    now apply Hkeep.
Qed.

(** ** What the accessors return *)

Lemma stream_pooled this ss hs w o idx :
  pool_live this ss hs w -> heap w !! this = Some o ->
  use_default o = false ->
  exists s, ss !! Z.to_nat (idx mod SMGR_N_STREAMS) = Some s /\
            stream this idx w = (Ok s, w).
Proof.
  intros [(o' & Ho' & Hs & Hh) _ Hl1 _ _ _ _ _ _] Ho Hu.
  rewrite Ho in Ho'. inversion Ho'; subst o'.
  pose proof (slot_range idx) as Hr. rewrite slot_wrap in Hr.
  destruct (lookup_lt_is_Some_2 ss (Z.to_nat (idx mod SMGR_N_STREAMS)))
    as [s Hsi]; [lia|].
  exists s. split; [exact Hsi|]. unfold stream.
  rewrite (bind_ok _ _ _ _ _ (load_ok _ _ _ Ho)), Hu, Hs, slot_wrap.
  apply read_slot_ok; [lia|exact Hsi].
Qed.

Lemma handle_pooled this ss hs w o idx :
  pool_live this ss hs w -> heap w !! this = Some o ->
  use_default o = false ->
  exists h, hs !! Z.to_nat (idx mod SMGR_N_STREAMS) = Some h /\
            handle this idx w = (Ok h, w).
Proof.
  intros [(o' & Ho' & Hs & Hh) _ _ Hl2 _ _ _ _ _] Ho Hu.
  rewrite Ho in Ho'. inversion Ho'; subst o'.
  pose proof (slot_range idx) as Hr. rewrite slot_wrap in Hr.
  destruct (lookup_lt_is_Some_2 hs (Z.to_nat (idx mod SMGR_N_STREAMS)))
    as [h Hhi]; [lia|].
  exists h. split; [exact Hhi|]. unfold handle.
  rewrite (bind_ok _ _ _ _ _ (load_ok _ _ _ Ho)), Hu, Hh, slot_wrap.
  apply read_slot_ok; [lia|exact Hhi].
Qed.

Lemma stream_default this w o idx :
  heap w !! this = Some o -> use_default o = true ->
  stream this idx w = (Ok (current_stream w), w).
Proof.
  intros Ho Hu. unfold stream.
  now rewrite (bind_ok _ _ _ _ _ (load_ok _ _ _ Ho)), Hu.
Qed.

Lemma handle_default this w o idx :
  heap w !! this = Some o -> use_default o = true ->
  handle this idx w = (Ok (current_blas_handle w), w).
Proof.
  intros Ho Hu. unfold handle.
  now rewrite (bind_ok _ _ _ _ _ (load_ok _ _ _ Ho)), Hu.
Qed.

Lemma sync_default this w o idx :
  heap w !! this = Some o -> use_default o = true ->
  sync this idx w = (Ok tt, w).
Proof.
  intros Ho Hu. unfold sync.
  now rewrite (bind_ok _ _ _ _ _ (load_ok _ _ _ Ho)), Hu.
Qed.

(** The example worlds. *)
Lemma pooled_world_live : Live 0%nat pooled_world.
Proof.
  eapply (Live_setup 0%nat (fresh_world 1 []) _ 0).
  - reflexivity.
  - simpl. lia.
  - vm_compute. reflexivity.
Qed.

Lemma default_world_live : Live 0%nat default_world.
Proof. apply Live_call, pooled_world_live. Qed.

Lemma busy_world_live : Live 0%nat busy_world.
Proof. do 2 apply Live_call. apply pooled_world_live. Qed.

(** ** Waiting on a list of live streams *)

Lemma synchronize_all_cons s ss D :
  synchronize_all (s :: ss) D =
  synchronize_all ss (snd (cudaStreamSynchronize s D)).
Proof. reflexivity. Qed.

Lemma cudaStreamSynchronize_live s D :
  s ∈ dev_streams D ->
  snd (cudaStreamSynchronize s D) =
  mkDevice (dev_count D) (dev_current D) (dev_next_stream D)
    (dev_next_handle D) (dev_streams D) (dev_handles D) (dev_bound D)
    (delete s (dev_pending D)) (dev_faults D)
    (dev_trace D ++ [EvStreamSynchronize s cudaSuccess]).
Proof. intros H. unfold cudaStreamSynchronize. now rewrite decide_True. Qed.

Lemma synchronize_all_live ss :
  forall D, (forall s, s ∈ ss -> s ∈ dev_streams D) ->
    dev_trace (synchronize_all ss D) =
      dev_trace D ++ ((fun s => EvStreamSynchronize s cudaSuccess) <$> ss) /\
    dev_streams (synchronize_all ss D) = dev_streams D /\
    (forall s, s ∈ ss -> pending (synchronize_all ss D) s = 0%nat) /\
    (forall s, s ∉ ss -> pending (synchronize_all ss D) s = pending D s).
Proof.
  induction ss as [|s ss IH]; intros D Hlive.
  - simpl. rewrite app_nil_r. repeat split; try done.
    intros s Hs. now apply elem_of_nil in Hs.
  - rewrite synchronize_all_cons.
    rewrite cudaStreamSynchronize_live
      by (apply Hlive; apply elem_of_cons; now left).
    match goal with |- context [synchronize_all ss ?D1] =>
      destruct (IH D1) as (Ht & Hs & Hz & Hk) end.
    { intros x Hx. simpl. apply Hlive. apply elem_of_cons. now right. }
    simpl in Ht, Hs, Hk. split; [|split; [|split]].
    + rewrite Ht. rewrite <- app_assoc. reflexivity.
    + exact Hs.
    + intros x Hx. destruct (decide (x ∈ ss)) as [Hin|Hnin]; [now apply Hz|].
      rewrite Hk by exact Hnin.
      apply elem_of_cons in Hx as [->|Hx]; [|done].
      unfold pending. simpl. now rewrite lookup_delete_eq.
    + intros x Hx. apply not_elem_of_cons in Hx as [Hne Hnin].
      rewrite Hk by exact Hnin.
      unfold pending. simpl. now rewrite lookup_delete_ne.
Qed.

Lemma NoDup_outside_prefix {A} (l : list A) n j x :
  NoDup l -> l !! j = Some x -> (n <= j)%nat -> x ∉ take n l.
Proof.
  intros Hnd Hj Hn Hin.
  apply list_elem_of_lookup in Hin as [k Hk].
  apply lookup_take_Some in Hk as [Hk Hlt].
  pose proof (NoDup_lookup _ _ _ _ Hnd Hj Hk). lia.
Qed.

(** C1.  On a live pool with [use_default] false, [sync(idx)] for
    [idx >= 0] returns after waiting on the streams of slots
    [0 .. min(idx, N) - 1], one after the other in increasing slot order:
    these streams have no unfinished work left, no stream of a later slot is
    waited on or has its work touched, nothing but the runtime changes;
    [sync(0)] changes nothing, and [sync(idx)] for [idx > N] is [sync(N)]. *)
Theorem sync_waits_on_prefix this w o idx :
  Live this w -> heap w !! this = Some o -> use_default o = false ->
  0 <= idx ->
  exists ss w',
    streams o = Some (Some <$> ss) /\
    length ss = Z.to_nat SMGR_N_STREAMS /\
    sync this idx w = (Ok tt, w') /\
    w' = with_gpu (gpu w') w /\
    dev_trace (gpu w') =
      dev_trace (gpu w) ++
      ((fun s => EvStreamSynchronize s cudaSuccess) <$>
         take (Z.to_nat (Z.min idx SMGR_N_STREAMS)) ss) /\
    (forall j s, ss !! j = Some s ->
       (j < Z.to_nat (Z.min idx SMGR_N_STREAMS))%nat ->
       pending (gpu w') s = 0%nat) /\
    (forall j s, ss !! j = Some s ->
       (Z.to_nat (Z.min idx SMGR_N_STREAMS) <= j)%nat ->
       pending (gpu w') s = pending (gpu w) s /\
       s ∉ take (Z.to_nat (Z.min idx SMGR_N_STREAMS)) ss) /\
    (idx = 0 -> w' = w) /\
    (SMGR_N_STREAMS < idx -> sync this idx w = sync this SMGR_N_STREAMS w).
Proof.
  intros Hlive Ho Hu Hidx.
  destruct (Live_pool_live _ _ Hlive) as (ss & hs & Hpl).
  pose proof Hpl as [(o' & Ho' & Hs & Hh) _ Hl1 _ Hnd _ Hst _ _].
  rewrite Ho in Ho'. inversion Ho'; subst o'.
  assert (Hrun : forall k, sync this k w =
            (Ok tt, with_gpu (synchronize_all
                                (take (Z.to_nat (Z.min k SMGR_N_STREAMS)) ss)
                                (gpu w)) w)).
  { intros k. unfold sync.
    rewrite (bind_ok _ _ _ _ _ (load_ok _ _ _ Ho)), Hu.
    rewrite (sync_loop_run this o ss k Hs Hl1 _ 0 w eq_refl (Z.le_refl 0) Ho).
    now rewrite Z.sub_0_r. }
  set (n := Z.to_nat (Z.min idx SMGR_N_STREAMS)).
  destruct (synchronize_all_live (take n ss) (gpu w))
    as (Ht & _ & Hz & Hk).
  { intros s [j [Hj _]]%elem_of_take. apply Hst.
    apply list_elem_of_lookup. eauto. }
  exists ss, (with_gpu (synchronize_all (take n ss) (gpu w)) w).
  split; [exact Hs|]. split; [exact Hl1|]. split; [apply Hrun|].
  split; [reflexivity|]. split; [exact Ht|]. split; [|split; [|split]].
  - intros j s Hj Hlt. apply Hz. apply elem_of_take. eauto.
  - intros j s Hj Hge.
    pose proof (NoDup_outside_prefix _ _ _ _ Hnd Hj Hge) as Hout.
    split; [now apply Hk | exact Hout].
  - intros ->. subst n. simpl. apply with_gpu_id.
  - intros Hgt. rewrite !Hrun. subst n.
    now replace (Z.min idx SMGR_N_STREAMS)
      with (Z.min SMGR_N_STREAMS SMGR_N_STREAMS) by lia.
Qed.

Lemma sync_waits_on_prefix_witness :
  exists ss w',
    streams (mkPool 0 false
               (Some (Some <$> seq 10 16)) (Some (Some <$> seq 100 16))) =
      Some (Some <$> ss) /\
    length ss = Z.to_nat SMGR_N_STREAMS /\
    sync 0%nat 3 busy_world = (Ok tt, w') /\
    w' = with_gpu (gpu w') busy_world /\
    dev_trace (gpu w') =
      dev_trace (gpu busy_world) ++
      ((fun s => EvStreamSynchronize s cudaSuccess) <$>
         take (Z.to_nat (Z.min 3 SMGR_N_STREAMS)) ss) /\
    (forall j s, ss !! j = Some s ->
       (j < Z.to_nat (Z.min 3 SMGR_N_STREAMS))%nat ->
       pending (gpu w') s = 0%nat) /\
    (forall j s, ss !! j = Some s ->
       (Z.to_nat (Z.min 3 SMGR_N_STREAMS) <= j)%nat ->
       pending (gpu w') s = pending (gpu busy_world) s /\
       s ∉ take (Z.to_nat (Z.min 3 SMGR_N_STREAMS)) ss) /\
    (3 = 0 -> w' = busy_world) /\
    (SMGR_N_STREAMS < 3 ->
     sync 0%nat 3 busy_world = sync 0%nat SMGR_N_STREAMS busy_world).
Proof.
  apply (sync_waits_on_prefix 0%nat busy_world
           (mkPool 0 false (Some (Some <$> seq 10 16))
              (Some (Some <$> seq 100 16))) 3).
  - exact busy_world_live.
  - vm_compute. reflexivity.
  - reflexivity.
  - lia.
Defined.

(** C9.  For a negative argument the loop guard [i < idx] fails at
    [i = 0]: [sync] returns at once, with no runtime call and no change,
    whatever state the pool object is in. *)
Theorem sync_negative_is_noop this w o idx :
  heap w !! this = Some o -> idx < 0 -> sync this idx w = (Ok tt, w).
Proof.
  intros Ho Hneg. unfold sync.
  rewrite (bind_ok _ _ _ _ _ (load_ok _ _ _ Ho)).
  destruct (use_default o); [reflexivity|].
  rewrite sync_loop_exit by lia. reflexivity.
Qed.

Lemma sync_negative_is_noop_witness :
  sync 0%nat (-5) pooled_world = (Ok tt, pooled_world).
Proof.
  apply (sync_negative_is_noop 0%nat pooled_world
           (mkPool 0 false (Some (Some <$> seq 10 16))
              (Some (Some <$> seq 100 16))) (-5)).
  - vm_compute. reflexivity.
  - lia.
Defined.

(** Scenario: a long kernel on slot 10, a short one on slot 2, then
    [sync(5)]: slot 2 is drained, slot 10 is not waited on. *)
Example partial_sync :
  let w' := world_after (sync 0%nat 5) busy_world in
  pending (gpu busy_world) 12%nat = 4%nat /\
  pending (gpu w') 12%nat = 0%nat /\
  pending (gpu w') 20%nat = 7%nat /\
  dev_trace (gpu w') =
    dev_trace (gpu busy_world) ++
    ((fun s => EvStreamSynchronize s cudaSuccess) <$> seq 10 5).
Proof. vm_compute. repeat split. Qed.

(** ** Default mode *)

(** C5.  With [use_default] true, [stream(idx)] and [handle(idx)] return
    the host framework's current stream and current cuBLAS handle for every
    [idx], whatever the pool's array fields are, and [sync(idx)] returns at
    once for every [idx]; none of the three makes a runtime call or changes
    anything. *)
Theorem default_mode_passthrough this w o idx :
  heap w !! this = Some o -> use_default o = true ->
  stream this idx w = (Ok (current_stream w), w) /\
  handle this idx w = (Ok (current_blas_handle w), w) /\
  sync this idx w = (Ok tt, w).
Proof.
  intros Ho Hu. split; [|split].
  - eapply stream_default; eassumption.
  - eapply handle_default; eassumption.
  - eapply sync_default; eassumption.
Qed.

Lemma default_mode_passthrough_witness :
  stream 0%nat 7 default_world =
    (Ok (current_stream default_world), default_world) /\
  handle 0%nat 7 default_world =
    (Ok (current_blas_handle default_world), default_world) /\
  sync 0%nat 7 default_world = (Ok tt, default_world).
Proof.
  apply (default_mode_passthrough 0%nat default_world
           (mkPool 0 true (Some (Some <$> seq 10 16))
              (Some (Some <$> seq 100 16))) 7).
  - vm_compute. reflexivity.
  - reflexivity.
Defined.

(** C10.  On a pool object whose [setup] has never run (both array
    pointers invalid) and whose [use_default] is true, [stream], [handle]
    and [sync] are defined for every argument: they return the ambient
    stream, the ambient handle and nothing, without touching the world. *)
Theorem default_mode_needs_no_setup this w o idx upto :
  heap w !! this = Some o ->
  streams o = None -> handles o = None -> use_default o = true ->
  stream this idx w = (Ok (current_stream w), w) /\
  handle this idx w = (Ok (current_blas_handle w), w) /\
  sync this upto w = (Ok tt, w).
Proof.
  intros Ho _ _ Hu. split; [|split].
  - eapply stream_default; eassumption.
  - eapply handle_default; eassumption.
  - eapply sync_default; eassumption.
Qed.

Lemma default_mode_needs_no_setup_witness :
  stream 0%nat 7 uninitialized_world = (Ok 1000%nat, uninitialized_world) /\
  handle 0%nat 7 uninitialized_world = (Ok 2000%nat, uninitialized_world) /\
  sync 0%nat 16 uninitialized_world = (Ok tt, uninitialized_world).
Proof.
  apply (default_mode_needs_no_setup 0%nat uninitialized_world
           (mkPool 0 true None None) 7 16); reflexivity.
Defined.

(** The same object in pooled mode: the accessors, and [sync] for a
    positive argument, read through the invalid array pointer. *)
Lemma pooled_mode_needs_setup this w o idx upto :
  heap w !! this = Some o ->
  streams o = None -> handles o = None -> use_default o = false ->
  0 < upto ->
  stream this idx w = (Undefined, w) /\
  handle this idx w = (Undefined, w) /\
  sync this upto w = (Undefined, w).
Proof.
  intros Ho Hs Hh Hu Hup. unfold stream, handle, sync.
  rewrite !(bind_ok _ _ _ _ _ (load_ok _ _ _ Ho)), Hu, Hs, Hh.
  repeat split.
  rewrite sync_loop_step by (unfold SMGR_N_STREAMS; lia).
  now rewrite (bind_ok _ _ _ _ _ (load_ok _ _ _ Ho)), Hs.
Qed.

(** ** The accessors on a live pool *)

(** C8.  On a live pool the accessors return a value and leave the whole
    world as it was: every field of every pool object and every entry of
    the registry included. *)
Theorem accessors_have_no_side_effects this w idx :
  Live this w -> 0 <= idx ->
  (exists s, stream this idx w = (Ok s, w)) /\
  (exists h, handle this idx w = (Ok h, w)) /\
  heap (world_after (stream this idx) w) = heap w /\
  smgrs (world_after (stream this idx) w) = smgrs w /\
  heap (world_after (handle this idx) w) = heap w /\
  smgrs (world_after (handle this idx) w) = smgrs w.
Proof.
  intros Hlive _.
  destruct (Live_pool_live _ _ Hlive) as (ss & hs & Hpl).
  pose proof Hpl as [(o & Ho & _) _ _ _ _ _ _ _ _].
  rewrite stream_pure, handle_pure. repeat split.
  - destruct (use_default o) eqn:Hu.
    + eexists. eapply stream_default; eassumption.
    + destruct (stream_pooled _ _ _ _ _ idx Hpl Ho Hu) as (s & _ & Hs).
      eauto.
  - destruct (use_default o) eqn:Hu.
    + eexists. eapply handle_default; eassumption.
    + destruct (handle_pooled _ _ _ _ _ idx Hpl Ho Hu) as (h & _ & Hh).
      eauto.
Qed.

Lemma accessors_have_no_side_effects_witness :
  (exists s, stream 0%nat 35 busy_world = (Ok s, busy_world)) /\
  (exists h, handle 0%nat 35 busy_world = (Ok h, busy_world)) /\
  heap (world_after (stream 0%nat 35) busy_world) = heap busy_world /\
  smgrs (world_after (stream 0%nat 35) busy_world) = smgrs busy_world /\
  heap (world_after (handle 0%nat 35) busy_world) = heap busy_world /\
  smgrs (world_after (handle 0%nat 35) busy_world) = smgrs busy_world.
Proof.
  apply (accessors_have_no_side_effects 0%nat busy_world 35).
  - exact busy_world_live.
  - lia.
Defined.



Lemma read_slot_inv {A} (arr : option (list (option A))) i x w w' :
  read_slot arr i w = (Ok x, w') ->
  exists l, arr = Some l /\ l !! Z.to_nat i = Some (Some x).
Proof.
  unfold read_slot, ret, undefined. destruct arr as [l|]; [|discriminate].
  destruct (0 <=? i); [|discriminate].
  destruct (l !! Z.to_nat i) as [[y|]|] eqn:E; try discriminate.
  intros H. inversion H; subst. eauto.
Qed.

(** C3, as amended.  On a live pool with [use_default] false, for every
    index [i >= 0] both accessors return what slot [i mod N] holds, and the
    handle returned by [handle(i)] is bound to the stream returned by
    [stream(i)]. *)
Theorem pooled_handle_bound_to_queue this w o i :
  Live this w -> heap w !! this = Some o -> use_default o = false ->
  0 <= i ->
  handle_bound_to_queue this i w.
Proof.
  intros Hlive Ho Hu Hi.
  destruct (Live_pool_live _ _ Hlive) as (ss & hs & Hpl).
  destruct (stream_pooled _ _ _ _ _ i Hpl Ho Hu) as (s & Hsi & Hrs).
  destruct (handle_pooled _ _ _ _ _ i Hpl Ho Hu) as (h & Hhi & Hrh).
  pose proof Hpl as [(o' & Ho' & Hs & Hh) _ _ _ _ _ _ _ Hb].
  rewrite Ho in Ho'. inversion Ho'; subst o'.
  pose proof (Z.mod_pos_bound i SMGR_N_STREAMS eq_refl) as Hr.
  exists o, h, s. split; [exact Ho|].
  split; [rewrite Hh; apply read_slot_ok; [lia|exact Hhi]|].
  split; [rewrite Hs; apply read_slot_ok; [lia|exact Hsi]|].
  split; [exact Hrh|]. split; [exact Hrs|].
  eapply Hb; eassumption.
Qed.

Lemma pooled_handle_bound_to_queue_witness :
  handle_bound_to_queue 0%nat 35 busy_world.
Proof.
  apply (pooled_handle_bound_to_queue 0%nat busy_world
           (mkPool 0 false (Some (Some <$> seq 10 16))
              (Some (Some <$> seq 100 16))) 35).
  - exact busy_world_live.
  - vm_compute. reflexivity.
  - reflexivity.
  - lia.
Defined.

(** In default mode the accessors do not return what the slot holds. *)
Lemma default_mode_not_slot this w o l i h0 :
  heap w !! this = Some o -> use_default o = true ->
  handles o = Some l ->
  l !! Z.to_nat (i mod SMGR_N_STREAMS) = Some (Some h0) ->
  h0 <> current_blas_handle w ->
  ~ handle_bound_to_queue this i w.
Proof.
  intros Ho Hu Hl Hl0 Hne (o' & h & s & Ho' & Hrh & Hrs & Hh' & Hs' & Hb).
  rewrite Ho in Ho'. injection Ho' as <-.
  rewrite (handle_default _ _ _ i Ho Hu) in Hh'.
  injection Hh' as <-.
  apply read_slot_inv in Hrh as (l' & Hl' & Hl0').
  rewrite Hl in Hl'. injection Hl' as <-.
  rewrite Hl0 in Hl0'. injection Hl0' as Heq. contradiction.
Qed.

(** C3 as stated fails on a live pool in default mode: [handle(0)] and
    [stream(0)] are the host framework's ambient handle and stream, not the
    handle and the stream that slot 0 holds and that [setup] bound. *)
Lemma default_mode_bypasses_slots :
  Live 0%nat default_world /\
  result_of (handle 0%nat 0) default_world = Ok 2000%nat /\
  result_of (stream 0%nat 0) default_world = Ok 1000%nat /\
  (exists o, heap default_world !! 0%nat = Some o /\
             handles o = Some (Some <$> seq 100 16) /\
             streams o = Some (Some <$> seq 10 16)) /\
  ~ handle_bound_to_queue 0%nat 0 default_world.
Proof.
  split; [exact default_world_live|].
  split; [vm_compute; reflexivity|].
  split; [vm_compute; reflexivity|].
  split; [eexists; split; [vm_compute; reflexivity|split; reflexivity]|].
  apply (default_mode_not_slot 0%nat default_world
           (mkPool 0 true (Some (Some <$> seq 10 16))
              (Some (Some <$> seq 100 16)))
           (Some <$> seq 100 16) 0 100%nat).
  - vm_compute. reflexivity.
  - reflexivity.
  - reflexivity.
  - reflexivity.
  - vm_compute. discriminate.
Qed.

(** ** setup that fails *)

(** C6, as amended.  When [setup] fails, the error is that of the last
    runtime call made (a failed device selection, stream creation or handle
    creation); nothing was released during the call, and every stream and
    handle created by the earlier steps of the call is still allocated when
    the error reaches the caller. *)
Theorem setup_failure_releases_nothing this d w o e w' :
  heap w !! this = Some o ->
  setup this d w = (Raised e, w') ->
  exists tr ev,
    dev_trace (gpu w') = dev_trace (gpu w) ++ tr ++ [ev] /\
    failed_call ev e /\
    count_events is_release (tr ++ [ev]) = 0%nat /\
    (forall s, EvStreamCreate (Some s) ∈ tr -> s ∈ dev_streams (gpu w')) /\
    (forall h, EvBlasCreate (Some h) ∈ tr -> h ∈ dev_handles (gpu w')).
Proof.
  intros Ho Hrun.
  destruct (setup_outcome _ _ _ _ _ _ Ho Hrun) as (_ & Hfr & Hlast).
  destruct (Hlast e eq_refl) as (tr & ev & Htr & Hev).
  destruct Hfr as [_ _ _ _ _ _ _ (tr' & Htr' & Hrel & Hcs & Hch)].
  simpl in Htr'. rewrite Htr in Htr'. apply app_inv_head in Htr'. subst tr'.
  exists tr, ev. split; [exact Htr|]. split; [exact Hev|].
  split; [|split].
  - clear -Hrel. induction (tr ++ [ev]) as [|x l IH]; [reflexivity|].
    simpl. rewrite (Hrel x) by (apply elem_of_cons; now left).
    apply IH. intros y Hy. apply Hrel. apply elem_of_cons. now right.
  - intros s Hs. apply Hcs. apply elem_of_app. now left.
  - intros h Hh. apply Hch. apply elem_of_app. now left.
Qed.

Lemma setup_failure_releases_nothing_witness :
  exists tr ev,
    dev_trace (gpu (world_after (setup 0%nat 0) failing_world)) =
      dev_trace (gpu failing_world) ++ tr ++ [ev] /\
    failed_call ev (CublasError CUBLAS_STATUS_ALLOC_FAILED) /\
    count_events is_release (tr ++ [ev]) = 0%nat /\
    (forall s, EvStreamCreate (Some s) ∈ tr ->
       s ∈ dev_streams (gpu (world_after (setup 0%nat 0) failing_world))) /\
    (forall h, EvBlasCreate (Some h) ∈ tr ->
       h ∈ dev_handles (gpu (world_after (setup 0%nat 0) failing_world))).
Proof.
  apply (setup_failure_releases_nothing 0%nat 0 failing_world
           (mkPool 0 false None None)).
  - reflexivity.
  - vm_compute. reflexivity.
Defined.

(** C6 as stated fails: [setup] meets a failure at its fourth create call
    and surfaces it while the two streams and the handle created before are
    still allocated; the runtime was asked for no release. *)
Lemma setup_failure_leaves_allocations :
  let w' := world_after (setup 0%nat 0) failing_world in
  result_of (setup 0%nat 0) failing_world =
    Raised (CublasError CUBLAS_STATUS_ALLOC_FAILED) /\
  dev_trace (gpu w') =
    [EvSetDevice 0 cudaSuccess;
     EvStreamCreate (Some 10%nat); EvBlasCreate (Some 100%nat);
     EvSetStream 100 10 CUBLAS_STATUS_SUCCESS;
     EvStreamCreate (Some 11%nat); EvBlasCreate None] /\
  10%nat ∈ dev_streams (gpu w') /\
  11%nat ∈ dev_streams (gpu w') /\
  100%nat ∈ dev_handles (gpu w') /\
  count_events is_release (dev_trace (gpu w')) = 0%nat.
Proof.
  repeat split; try (vm_compute; reflexivity);
    apply bool_decide_unpack; vm_compute; exact I.
Qed.

(** ** destroy *)

Lemma cudaStreamDestroy_live s D :
  s ∈ dev_streams D ->
  cudaStreamDestroy s D =
  (cudaSuccess,
   mkDevice (dev_count D) (dev_current D) (dev_next_stream D)
     (dev_next_handle D) (dev_streams D ∖ {[ s ]}) (dev_handles D)
     (dev_bound D) (delete s (dev_pending D)) (dev_faults D)
     (dev_trace D ++ [EvStreamDestroy s cudaSuccess])).
Proof. intros H. unfold cudaStreamDestroy. now rewrite decide_True. Qed.

Lemma cublasDestroy_live h D :
  h ∈ dev_handles D ->
  cublasDestroy h D =
  (CUBLAS_STATUS_SUCCESS,
   mkDevice (dev_count D) (dev_current D) (dev_next_stream D)
     (dev_next_handle D) (dev_streams D) (dev_handles D ∖ {[ h ]})
     (delete h (dev_bound D)) (dev_pending D) (dev_faults D)
     (dev_trace D ++ [EvBlasDestroy h CUBLAS_STATUS_SUCCESS])).
Proof. intros H. unfold cublasDestroy. now rewrite decide_True. Qed.

Lemma release_all_cons s ss h hs :
  release_all (s :: ss) (h :: hs) =
  EvStreamDestroy s cudaSuccess :: EvBlasDestroy h CUBLAS_STATUS_SUCCESS ::
  release_all ss hs.
Proof. reflexivity. Qed.

(** The loop of [destroy] from slot [i] on, when the streams and handles
    of the remaining slots are live and pairwise distinct. *)
Lemma destroy_loop_run this o ss hs :
  streams o = Some (Some <$> ss) -> handles o = Some (Some <$> hs) ->
  length ss = Z.to_nat SMGR_N_STREAMS ->
  length hs = Z.to_nat SMGR_N_STREAMS ->
  NoDup ss -> NoDup hs ->
  forall n i w,
    n = Z.to_nat (SMGR_N_STREAMS - i) -> 0 <= i ->
    heap w !! this = Some o ->
    (forall j s, (Z.to_nat i <= j)%nat -> ss !! j = Some s ->
       s ∈ dev_streams (gpu w)) ->
    (forall j h, (Z.to_nat i <= j)%nat -> hs !! j = Some h ->
       h ∈ dev_handles (gpu w)) ->
    exists w',
      destroy_loop this i w = (Ok tt, w') /\
      heap w' = heap w /\ same_host w w' /\
      dev_trace (gpu w') =
        dev_trace (gpu w) ++
        release_all (drop (Z.to_nat i) ss) (drop (Z.to_nat i) hs) /\
      dev_streams (gpu w') =
        dev_streams (gpu w) ∖ list_to_set (drop (Z.to_nat i) ss) /\
      dev_handles (gpu w') =
        dev_handles (gpu w) ∖ list_to_set (drop (Z.to_nat i) hs).
Proof.
  intros Hs Hh Hl1 Hl2 Hnd1 Hnd2 n.
  induction n as [n IH] using lt_wf_ind.
  intros i w Hn Hi Ho Hls Hlh.
  destruct (decide (i < SMGR_N_STREAMS)) as [Hlt|Hge].
  - destruct (lookup_lt_is_Some_2 ss (Z.to_nat i)) as [s Hsi]; [lia|].
    destruct (lookup_lt_is_Some_2 hs (Z.to_nat i)) as [h Hhi]; [lia|].
    rewrite destroy_loop_step by assumption.
    rewrite (bind_ok _ _ _ _ _ (load_ok _ _ _ Ho)), Hs, Hh.
    rewrite (bind_ok _ _ _ _ _ (read_slot_ok _ _ _ _ Hi Hsi)).
    rewrite (bind_ok _ _ _ _ _
               (rt_run _ _ _ _
                  (cudaStreamDestroy_live s _ (Hls _ s (le_n _) Hsi)))).
    rewrite (bind_ok _ _ _ _ _ (check_cuda_ok _)).
    rewrite (bind_ok _ _ _ _ _ (read_slot_ok _ _ _ _ Hi Hhi)).
    match goal with |- context [bind (rt (cublasDestroy h)) _ ?w1] =>
      set (wm := w1) end.
    assert (Hhm : h ∈ dev_handles (gpu wm))
      by (subst wm; simpl; exact (Hlh _ h (le_n _) Hhi)).
    rewrite (bind_ok _ _ _ _ _
               (rt_run _ wm _ _ (cublasDestroy_live h _ Hhm))).
    rewrite (bind_ok _ _ _ _ _ (check_cublas_ok _)).
    match goal with |- context [destroy_loop this (i + 1) ?w1] =>
      set (wa := w1) end.
    destruct (IH (Z.to_nat (SMGR_N_STREAMS - (i + 1))) ltac:(lia)
                (i + 1) wa eq_refl ltac:(lia) Ho)
      as (w' & Hrun & Hheap & Hhost & Htr & Hst & Hha).
    + intros j x Hj Hx. subst wa wm. simpl.
      apply elem_of_difference. split; [apply (Hls j); [lia|exact Hx]|].
      intros ->%elem_of_singleton.
      pose proof (NoDup_lookup _ _ _ _ Hnd1 Hsi Hx). lia.
    + intros j x Hj Hx. subst wa wm. simpl.
      apply elem_of_difference. split; [apply (Hlh j); [lia|exact Hx]|].
      intros ->%elem_of_singleton.
      pose proof (NoDup_lookup _ _ _ _ Hnd2 Hhi Hx). lia.
    + exists w'. split; [exact Hrun|]. split; [exact Hheap|].
      split; [destruct Hhost; now split|].
      rewrite (drop_S _ _ _ Hsi), (drop_S _ _ _ Hhi), release_all_cons.
      replace (Z.to_nat (i + 1)) with (S (Z.to_nat i)) in * by lia.
      subst wa wm. simpl in Htr, Hst, Hha.
      split; [|split].
      * rewrite Htr. rewrite <- !app_assoc. reflexivity.
      * rewrite Hst. simpl. set_solver.
      * rewrite Hha. simpl. set_solver.
  - rewrite destroy_loop_exit by assumption.
    exists w. split; [reflexivity|]. split; [reflexivity|].
    split; [apply same_host_refl|].
    rewrite !drop_ge by lia. simpl.
    split; [now rewrite app_nil_r|]. split; set_solver.
Qed.

Lemma count_releases_stream s :
  forall ss hs, length ss = length hs ->
    (s ∉ ss -> count_events (releases_stream s) (release_all ss hs) = 0%nat) /\
    (NoDup ss -> s ∈ ss ->
     count_events (releases_stream s) (release_all ss hs) = 1%nat).
Proof.
  induction ss as [|x ss IH]; intros [|h hs] Hlen; try discriminate.
  - split; [reflexivity|]. intros _ H. now apply elem_of_nil in H.
  - injection Hlen as Hlen. destruct (IH hs Hlen) as [IH0 IH1].
    rewrite release_all_cons. cbn [count_events releases_stream].
    split.
    + intros [Hne Hnin]%not_elem_of_cons.
      rewrite bool_decide_false by congruence. now rewrite IH0.
    + intros [Hx Hnd]%NoDup_cons [->|Hin]%elem_of_cons.
      * rewrite bool_decide_true by reflexivity. now rewrite IH0.
      * rewrite bool_decide_false by (intros ->; contradiction).
        now rewrite IH1.
Qed.

Lemma count_releases_handle h :
  forall ss hs, length ss = length hs ->
    (h ∉ hs -> count_events (releases_handle h) (release_all ss hs) = 0%nat) /\
    (NoDup hs -> h ∈ hs ->
     count_events (releases_handle h) (release_all ss hs) = 1%nat).
Proof.
  induction ss as [|s ss IH]; intros [|x hs] Hlen; try discriminate.
  - split; [reflexivity|]. intros _ H. now apply elem_of_nil in H.
  - injection Hlen as Hlen. destruct (IH hs Hlen) as [IH0 IH1].
    rewrite release_all_cons. cbn [count_events releases_handle].
    split.
    + intros [Hne Hnin]%not_elem_of_cons.
      rewrite bool_decide_false by congruence. now rewrite IH0.
    + intros [Hx Hnd]%NoDup_cons [->|Hin]%elem_of_cons.
      * rewrite bool_decide_true by reflexivity. now rewrite IH0.
      * rewrite bool_decide_false by (intros ->; contradiction).
        now rewrite IH1.
Qed.

(** C7.  On a live pool a single call to [destroy] completes, and asks
    the runtime for exactly these releases: slot after slot, the stream and
    then the handle that [setup] created for it.  Each of the N streams and
    each of the N handles is released exactly once, all releases succeed,
    none of these objects is allocated afterwards, and both arrays are
    gone. *)
Theorem destroy_releases_each_once this w :
  Live this w ->
  exists ss hs w',
    pool_live this ss hs w /\
    destroy this w = (Ok tt, w') /\
    dev_trace (gpu w') = dev_trace (gpu w) ++ release_all ss hs /\
    count_events is_release (release_all ss hs) =
      Z.to_nat (2 * SMGR_N_STREAMS) /\
    (forall s, s ∈ ss ->
       count_events (releases_stream s) (release_all ss hs) = 1%nat /\
       s ∉ dev_streams (gpu w')) /\
    (forall h, h ∈ hs ->
       count_events (releases_handle h) (release_all ss hs) = 1%nat /\
       h ∉ dev_handles (gpu w')) /\
    (exists o', heap w' !! this = Some o' /\
                streams o' = None /\ handles o' = None).
Proof.
  intros Hlive.
  destruct (Live_pool_live _ _ Hlive) as (ss & hs & Hpl).
  pose proof Hpl as [(o & Ho & Hs & Hh) _ Hl1 Hl2 Hnd1 Hnd2 Hst Hha _].
  destruct (destroy_loop_run this o ss hs Hs Hh Hl1 Hl2 Hnd1 Hnd2
              _ 0 w eq_refl (Z.le_refl 0) Ho)
    as (w1 & Hrun & Hheap & Hhost & Htr & Hsts & Hhds).
  { intros j s _ Hj. apply Hst. apply list_elem_of_lookup. eauto. }
  { intros j h _ Hj. apply Hha. apply list_elem_of_lookup. eauto. }
  simpl in Htr, Hsts, Hhds.
  assert (Ho1 : heap w1 !! this = Some o) by now rewrite Hheap.
  exists ss, hs. eexists. split; [exact Hpl|]. split.
  { unfold destroy.
    rewrite (bind_ok _ _ _ _ _ Hrun).
    rewrite (bind_ok _ _ _ _ _ (load_ok _ _ _ Ho1)), Hs.
    unfold delete_array at 1.
    rewrite (bind_ok (ret tt) _ _ tt w1) by reflexivity.
    rewrite (bind_ok _ _ _ _ _ (store_run _ _ _)).
    match goal with |- context [bind (load this) _ ?wx] =>
      set (wa := wx) end.
    assert (Hoa : heap wa !! this = Some (set_streams None o))
      by (subst wa; simpl; apply lookup_insert_eq).
    rewrite (bind_ok _ _ _ _ _ (load_ok _ _ _ Hoa)).
    cbn [handles set_streams]. rewrite Hh. unfold delete_array.
    rewrite (bind_ok (ret tt) _ _ tt wa) by reflexivity.
    apply store_run. }
  simpl. split; [exact Htr|]. split; [|split; [|split]].
  - clear -Hl1 Hl2. unfold SMGR_N_STREAMS in *.
    assert (Hlen : length ss = length hs) by congruence.
    replace (Z.to_nat (2 * 16)) with (2 * length ss)%nat by lia.
    clear Hl1 Hl2. revert hs Hlen.
    induction ss as [|s ss IH]; intros [|h hs] Hlen; try discriminate.
    + reflexivity.
    + injection Hlen as Hlen. rewrite release_all_cons. simpl.
      rewrite (IH hs Hlen). lia.
  - intros s Hsin. split.
    + apply count_releases_stream; [congruence|exact Hnd1|exact Hsin].
    + rewrite Hsts. set_solver.
  - intros h Hhin. split.
    + apply count_releases_handle; [congruence|exact Hnd2|exact Hhin].
    + rewrite Hhds. set_solver.
  - eexists. split; [apply lookup_insert_eq|]. split; reflexivity.
Qed.

Lemma destroy_releases_each_once_witness :
  exists ss hs w',
    pool_live 0%nat ss hs busy_world /\
    destroy 0%nat busy_world = (Ok tt, w') /\
    dev_trace (gpu w') = dev_trace (gpu busy_world) ++ release_all ss hs /\
    count_events is_release (release_all ss hs) =
      Z.to_nat (2 * SMGR_N_STREAMS) /\
    (forall s, s ∈ ss ->
       count_events (releases_stream s) (release_all ss hs) = 1%nat /\
       s ∉ dev_streams (gpu w')) /\
    (forall h, h ∈ hs ->
       count_events (releases_handle h) (release_all ss hs) = 1%nat /\
       h ∉ dev_handles (gpu w')) /\
    (exists o', heap w' !! 0%nat = Some o' /\
                streams o' = None /\ handles o' = None).
Proof.
  apply (destroy_releases_each_once 0%nat busy_world).
  exact busy_world_live.
Defined.

(** The mock-runtime reading of the same scenario: after [setup] and
    [destroy] nothing is left allocated and the trace pairs every create
    with one release. *)
Example teardown_counts :
  let w' := world_after (destroy 0%nat) pooled_world in
  result_of (destroy 0%nat) pooled_world = Ok tt /\
  dev_streams (gpu w') = ∅ /\ dev_handles (gpu w') = ∅ /\
  count_events is_release (dev_trace (gpu w')) = 32%nat /\
  count_events (releases_stream 12) (dev_trace (gpu w')) = 1%nat /\
  count_events (releases_handle 115) (dev_trace (gpu w')) = 1%nat.
Proof. vm_compute. repeat split. Qed.

(** ** The registry under interleaving *)














(** A schedule that runs leads to the state it computes. *)
Lemma exec_runs evs sys :
  match exec evs sys with Some _ => true | None => false end = true ->
  exec evs sys = Some (default sys (exec evs sys)).
Proof. now destruct (exec evs sys). Qed.

(** C2, where the code fails it.  Two threads ask for device 0 and nothing
    orders their calls.  In [overlapping_first_touch] thread 1 has made the
    unlocked lookup of line 68 and waits for the mutex when thread 0
    reaches the insertion of line 74: the two accesses to [smgrs] are a
    data race, both threads have undefined behaviour and no call has
    returned a pool.  In [late_lookup] thread 0 has returned pool 0 before
    thread 1 calls: the unlocked lookup of thread 1 races with the
    insertion thread 0 has made, so the second call does not return
    pool 0, its behaviour is undefined.  Only when the callers order the
    two calls themselves ([ordered_lookup]) does the second call return
    pool 0. *)
Theorem unlocked_lookup_races :
  (exists pre sys,
     exec (take 7 overlapping_first_touch) cold_start = Some pre /\
     next_access (thread_of pre 0) = Some WritesMap /\
     next_access (thread_of pre 1) = Some Acquires /\
     reads (order pre) !! 1%nat = Some 1%nat /\
     racing WritesMap 0 (order pre) = [1%nat] /\
     exec overlapping_first_touch cold_start = Some sys /\
     thread_of sys 0 = Broken /\ thread_of sys 1 = Broken /\
     returned sys = [] /\ smgrs (world sys) = ∅) /\
  (exists pre sys,
     exec (take 9 late_lookup) cold_start = Some pre /\
     returned pre = [(0, 0%nat)] /\
     smgrs (world pre) = {[ 0 := 0%nat ]} /\
     smgr_mtx (world pre) = None /\
     next_access (thread_of pre 1) = Some ReadsMap /\
     writes (order pre) !! 0%nat = Some 1%nat /\
     racing ReadsMap 1 (order pre) = [0%nat] /\
     exec late_lookup cold_start = Some sys /\
     thread_of sys 1 = Broken /\
     returned sys = [(0, 0%nat)]) /\
  (exists sys,
     exec ordered_lookup cold_start = Some sys /\
     thread_of sys 1 = Idle /\
     returned sys = [(0, 0%nat); (0, 0%nat)]).
Proof.
  split; [|split].
  - exists (default cold_start
              (exec (take 7 overlapping_first_touch) cold_start)),
           (default cold_start (exec overlapping_first_touch cold_start)).
    split; [apply exec_runs; vm_compute; reflexivity|].
    do 4 (split; [vm_compute; reflexivity|]).
    split; [apply exec_runs; vm_compute; reflexivity|].
    do 3 (split; [vm_compute; reflexivity|]). vm_compute. reflexivity.
  - exists (default cold_start (exec (take 9 late_lookup) cold_start)),
           (default cold_start (exec late_lookup cold_start)).
    split; [apply exec_runs; vm_compute; reflexivity|].
    do 6 (split; [vm_compute; reflexivity|]).
    split; [apply exec_runs; vm_compute; reflexivity|].
    split; vm_compute; reflexivity.
  - exists (default cold_start (exec ordered_lookup cold_start)).
    split; [apply exec_runs; vm_compute; reflexivity|].
    split; vm_compute; reflexivity.
Qed.

(** What the schedule has produced before the lookup of thread 1: one
    pool per device, and the same pool for both calls for device 0. *)
Example first_touch_race_result :
  returned after_race = [(0, 0%nat); (1, 1%nat); (0, 0%nat)] /\
  smgrs (world after_race) = {[ 0 := 0%nat; 1 := 1%nat ]} /\
  dom (heap (world after_race)) = {[ 0%nat; 1%nat ]} /\
  smgr_mtx (world after_race) = None.
Proof. vm_compute. repeat split. Qed.

(** * Further properties of the pool and the registry *)

(** ** setup *)

(** X1.  However [setup] ends on an allocated pool object, it has no undefined
    behaviour, the object carries the new device id (it is written before
    the device is selected), its [use_default] flag is untouched, and no
    other pool object, registry entry or the mutex has changed. *)
Theorem setup_records_device this d w o r w' :
  heap w !! this = Some o ->
  setup this d w = (r, w') ->
  r <> Undefined /\
  (exists o', heap w' !! this = Some o' /\ device o' = d /\
              use_default o' = use_default o) /\
  (forall q, q <> this -> heap w' !! q = heap w !! q) /\
  smgrs w' = smgrs w /\ smgr_mtx w' = smgr_mtx w /\
  next_ptr w' = next_ptr w.
Proof.
  intros Ho Hrun.
  destruct (setup_outcome _ _ _ _ _ _ Ho Hrun) as (Hr & Hfr & _).
  destruct Hfr as [[Hnp Hsm Hmt _ _] (o' & Hheap & Ho') _ _ _ _ _ _].
  simpl in *. split; [exact Hr|]. split; [|split].
  - exists o'. split; [rewrite Hheap; apply lookup_insert_eq|].
    destruct (Ho' (set_device d o)) as [Hd Hu]; [apply lookup_insert_eq|].
    split; [exact Hd|exact Hu].
  - intros q Hq. rewrite Hheap. now rewrite !lookup_insert_ne by done.
  - done.
Qed.

Lemma setup_records_device_witness :
  @Raised unit (CublasError CUBLAS_STATUS_ALLOC_FAILED) <> Undefined /\
  (exists o', heap (world_after (setup 0%nat 0) failing_world) !! 0%nat =
                Some o' /\
              device o' = 0 /\
              use_default o' = use_default (mkPool 0 false None None)) /\
  (forall q, q <> 0%nat ->
     heap (world_after (setup 0%nat 0) failing_world) !! q =
     heap failing_world !! q) /\
  smgrs (world_after (setup 0%nat 0) failing_world) = smgrs failing_world /\
  smgr_mtx (world_after (setup 0%nat 0) failing_world) =
    smgr_mtx failing_world /\
  next_ptr (world_after (setup 0%nat 0) failing_world) =
    next_ptr failing_world.
Proof.
  apply (setup_records_device 0%nat 0 failing_world (mkPool 0 false None None)).
  - reflexivity.
  - vm_compute. reflexivity.
Defined.

(** X2.  When the device id is out of range [setup] fails at the device
    selection, its only runtime call: no stream or handle is created and
    no array allocated, but the pool's device id is already overwritten. *)
Theorem setup_rejects_bad_device this d w o :
  heap w !! this = Some o ->
  ~ (0 <= d < dev_count (gpu w)) ->
  exists w',
    setup this d w = (Raised (CudaError cudaErrorInvalidDevice), w') /\
    heap w' = <[ this := mkPool d (use_default o) (streams o) (handles o) ]>
                (heap w) /\
    dev_streams (gpu w') = dev_streams (gpu w) /\
    dev_handles (gpu w') = dev_handles (gpu w) /\
    dev_current (gpu w') = dev_current (gpu w) /\
    dev_trace (gpu w') =
      dev_trace (gpu w) ++ [EvSetDevice d cudaErrorInvalidDevice].
Proof.
  intros Ho Hbad.
  assert (HD : cudaSetDevice d (gpu w) =
               (cudaErrorInvalidDevice,
                log (EvSetDevice d cudaErrorInvalidDevice) (gpu w))).
  { unfold cudaSetDevice.
    destruct (Z.leb_spec 0 d); destruct (Z.ltb_spec d (dev_count (gpu w)));
      simpl; try reflexivity. lia. }
  unfold setup.
  rewrite (bind_ok _ _ _ _ _ (load_ok _ _ _ Ho)).
  rewrite (bind_ok _ _ _ _ _ (store_run _ _ _)).
  rewrite (bind_ok _ _ _ _ _ (rt_run _ (with_heap _ w) _ _ HD)).
  eexists. split; [reflexivity|]. simpl. repeat split.
Qed.

Lemma setup_rejects_bad_device_witness :
  exists w',
    setup 0%nat 3 (fresh_world 1 []) =
      (Raised (CudaError cudaErrorInvalidDevice), w') /\
    heap w' = <[ 0%nat := mkPool 3 (use_default (mkPool 0 false None None))
                            (streams (mkPool 0 false None None))
                            (handles (mkPool 0 false None None)) ]>
                (heap (fresh_world 1 [])) /\
    dev_streams (gpu w') = dev_streams (gpu (fresh_world 1 [])) /\
    dev_handles (gpu w') = dev_handles (gpu (fresh_world 1 [])) /\
    dev_current (gpu w') = dev_current (gpu (fresh_world 1 [])) /\
    dev_trace (gpu w') =
      dev_trace (gpu (fresh_world 1 [])) ++
      [EvSetDevice 3 cudaErrorInvalidDevice].
Proof.
  apply (setup_rejects_bad_device 0%nat 3 (fresh_world 1 [])
           (mkPool 0 false None None)).
  - reflexivity.
  - simpl. lia.
Defined.

Lemma preserves_bind_trans (R : World -> World -> Prop) {A B}
    (c : M A) (k : A -> M B) :
  (forall w1 w2 w3, R w1 w2 -> R w2 w3 -> R w1 w3) ->
  preserves R c -> (forall a, preserves R (k a)) ->
  preserves R (bind c k).
Proof.
  intros Htrans Hc Hk w r w' H.
  apply bind_inv in H as [(a & w1 & H1 & H2)|[[H1 _]|(e & H1 & _)]].
  - eapply Htrans; [eapply Hc | eapply Hk]; eassumption.
  - eapply Hc; eassumption.
  - eapply Hc; eassumption.
Qed.

Lemma same_selection_trans w1 w2 w3 :
  same_selection w1 w2 -> same_selection w2 w3 -> same_selection w1 w3.
Proof. intros [] []. split; congruence. Qed.

(** Whatever leaves the runtime alone keeps the selection. *)
Lemma same_selection_gpu {A} (c : M A) :
  (forall w r w', c w = (r, w') -> gpu w' = gpu w) ->
  preserves same_selection c.
Proof.
  intros H w r w' Hrun. unfold same_selection.
  now rewrite (H _ _ _ Hrun).
Qed.

Lemma same_selection_load p : preserves same_selection (load p).
Proof.
  apply same_selection_gpu. intros w r w' H. unfold load in H.
  destruct (heap w !! p); now inversion H.
Qed.

Lemma same_selection_store p o : preserves same_selection (store p o).
Proof. apply same_selection_gpu. intros w r w' H. now inversion H. Qed.

Lemma same_selection_check {T} `{Status T} (r : T) :
  preserves same_selection (checkCudaErrors r).
Proof.
  apply same_selection_gpu. intros w r' w' Hrun. unfold checkCudaErrors in Hrun.
  destruct (succeeded r); now inversion Hrun.
Qed.

Lemma same_selection_read_slot {A} (arr : option (list (option A))) i :
  preserves same_selection (read_slot arr i).
Proof.
  apply same_selection_gpu. intros w r w' H.
  unfold read_slot, ret, undefined in H.
  destruct arr as [l|]; [|now inversion H].
  destruct (0 <=? i); [|now inversion H].
  destruct (l !! Z.to_nat i) as [[x|]|]; now inversion H.
Qed.

Lemma same_selection_stream_create :
  preserves same_selection (rt cudaStreamCreate).
Proof.
  intros w r w' H. unfold rt in H.
  destruct (cudaStreamCreate_cases (gpu w)) as [[fs HD]|[fs HD]];
    rewrite HD in H; inversion H; now split.
Qed.

Lemma same_selection_blas_create :
  preserves same_selection (rt cublasCreate).
Proof.
  intros w r w' H. unfold rt in H.
  destruct (cublasCreate_cases (gpu w)) as [[fs HD]|[fs HD]];
    rewrite HD in H; inversion H; now split.
Qed.

Lemma same_selection_set_stream h s :
  preserves same_selection (rt (cublasSetStream h s)).
Proof.
  intros w r w' H. unfold rt, cublasSetStream in H.
  destruct (decide _); inversion H; now split.
Qed.

Lemma same_selection_setup_loop this :
  forall n i, n = Z.to_nat (SMGR_N_STREAMS - i) ->
    preserves same_selection (setup_loop this i).
Proof.
  induction n as [n IH] using lt_wf_ind. intros i Hn.
  destruct (decide (i < SMGR_N_STREAMS)) as [Hlt|Hge].
  - rewrite setup_loop_step by assumption.
    apply preserves_bind_trans;
      [exact same_selection_trans|apply same_selection_load|]. intros self.
    apply preserves_bind_trans;
      [exact same_selection_trans|apply same_selection_stream_create|].
    intros [r out].
    apply preserves_bind_trans;
      [exact same_selection_trans|apply same_selection_store|]. intros _.
    apply preserves_bind_trans;
      [exact same_selection_trans|apply same_selection_check|]. intros _.
    apply preserves_bind_trans;
      [exact same_selection_trans|apply same_selection_load|]. intros self'.
    apply preserves_bind_trans;
      [exact same_selection_trans|apply same_selection_blas_create|].
    intros [r' out'].
    apply preserves_bind_trans;
      [exact same_selection_trans|apply same_selection_store|]. intros _.
    apply preserves_bind_trans;
      [exact same_selection_trans|apply same_selection_check|]. intros _.
    apply preserves_bind_trans;
      [exact same_selection_trans|apply same_selection_load|]. intros self''.
    apply preserves_bind_trans;
      [exact same_selection_trans|apply same_selection_read_slot|]. intros h.
    apply preserves_bind_trans;
      [exact same_selection_trans|apply same_selection_read_slot|]. intros s.
    apply preserves_bind_trans;
      [exact same_selection_trans|apply same_selection_set_stream|]. intros _.
    eapply IH; [|reflexivity]. lia.
  - rewrite setup_loop_exit by assumption.
    intros w r w' H. inversion H. now split.
Qed.

Lemma cudaSetDevice_valid d D :
  0 <= d < dev_count D ->
  cudaSetDevice d D =
  (cudaSuccess,
   mkDevice (dev_count D) d (dev_next_stream D) (dev_next_handle D)
     (dev_streams D) (dev_handles D) (dev_bound D) (dev_pending D)
     (dev_faults D) (dev_trace D ++ [EvSetDevice d cudaSuccess])).
Proof.
  intros Hd. unfold cudaSetDevice.
  destruct (Z.leb_spec 0 d); destruct (Z.ltb_spec d (dev_count D));
    simpl; try reflexivity; lia.
Qed.

(** With a valid device id [setup] reaches its loop with that device
    selected. *)
Lemma setup_selects this d w o :
  heap w !! this = Some o -> 0 <= d < dev_count (gpu w) ->
  exists w1, setup this d w = setup_loop this 0 w1 /\
             dev_current (gpu w1) = d.
Proof.
  intros Ho Hd. unfold setup.
  rewrite (bind_ok _ _ _ _ _ (load_ok _ _ _ Ho)).
  rewrite (bind_ok _ _ _ _ _ (store_run _ _ _)).
  rewrite (bind_ok _ _ _ _ _
             (rt_run _ (with_heap _ w) _ _ (cudaSetDevice_valid d _ Hd))).
  rewrite (bind_ok _ _ _ _ _ (check_cuda_ok _)).
  match goal with |- context [bind (load this) _ ?w1] => set (wa := w1) end.
  assert (Hoa : heap wa !! this = Some (set_device d o))
    by (subst wa; simpl; apply lookup_insert_eq).
  rewrite (bind_ok _ _ _ _ _ (load_ok _ _ _ Hoa)).
  rewrite (bind_ok _ _ _ _ _ (store_run _ _ _)).
  match goal with |- context [bind (load this) _ ?w1] => set (wb := w1) end.
  assert (Hob : heap wb !! this =
            Some (set_streams (new_array SMGR_N_STREAMS) (set_device d o)))
    by (subst wb; simpl; apply lookup_insert_eq).
  rewrite (bind_ok _ _ _ _ _ (load_ok _ _ _ Hob)).
  rewrite (bind_ok _ _ _ _ _ (store_run _ _ _)).
  eexists. split; [reflexivity|]. reflexivity.
Qed.

(** X3.  Once the device selection has succeeded, [setup] leaves that device
    selected, whether the loop completes or a create call fails: it never
    switches back to the device that was current before. *)
Theorem setup_leaves_device_selected this d w o r w' :
  heap w !! this = Some o ->
  0 <= d < dev_count (gpu w) ->
  setup this d w = (r, w') ->
  dev_current (gpu w') = d.
Proof.
  intros Ho Hd Hrun.
  destruct (setup_selects this d w o Ho Hd) as (w1 & Hnext & Hcur).
  rewrite Hnext in Hrun.
  destruct (same_selection_setup_loop this _ 0 eq_refl _ _ _ Hrun) as [Hc _].
  congruence.
Qed.

Lemma setup_leaves_device_selected_witness :
  dev_current (gpu (world_after (setup 0%nat 1)
                      (fresh_world 2 [false; false; true]))) = 1.
Proof.
  apply (setup_leaves_device_selected 0%nat 1
           (fresh_world 2 [false; false; true]) (mkPool 0 false None None)
           (Raised (CudaError cudaErrorMemoryAllocation))).
  - reflexivity.
  - simpl. lia.
  - vm_compute. reflexivity.
Defined.

Lemma setup_calls_cons s ss h hs :
  setup_calls (s :: ss) (h :: hs) =
  EvStreamCreate (Some s) :: EvBlasCreate (Some h) ::
  EvSetStream h s CUBLAS_STATUS_SUCCESS :: setup_calls ss hs.
Proof. reflexivity. Qed.

(** The loop of [setup] that runs to its end from slot [i] on: the pool
    holds the streams and handles of the earlier slots followed by those it
    created, and the trace has grown by their creation and binding. *)
Lemma setup_loop_calls this :
  forall n i w ss hs,
    n = Z.to_nat (SMGR_N_STREAMS - i) -> 0 <= i <= SMGR_N_STREAMS ->
    setup_progress this (Z.to_nat i) ss hs w ->
    forall w', setup_loop this i w = (Ok tt, w') ->
      exists ss' hs',
        length ss' = length hs' /\
        pool_live this (ss ++ ss') (hs ++ hs') w' /\
        dev_trace (gpu w') = dev_trace (gpu w) ++ setup_calls ss' hs' /\
        (forall h, h ∈ hs' -> (dev_next_handle (gpu w) <= h)%nat).
Proof.
  induction n as [n IH] using lt_wf_ind.
  intros i w ss hs Hn Hi Hsp w' Hrun.
  destruct (decide (i < SMGR_N_STREAMS)) as [Hlt|Hge].
  - pose proof Hsp as
      [(o & ls & lh & Ho & Hls & Hlh & Hl1 & Hl2 & Ht1 & Ht2) _ _ _ _ _ _].
    destruct (setup_iter this i w o ls lh) as
      [(w1 & e & ev & Hfail & _)|(w1 & s & h & Hnext & Hit)];
      try done; try lia.
    + rewrite Hfail in Hrun. inversion Hrun.
    + rewrite Hnext in Hrun.
      assert (Hsp1 : setup_progress this (Z.to_nat (i + 1))
                       (ss ++ [s]) (hs ++ [h]) w1)
        by (eapply setup_progress_next; try eassumption; lia).
      destruct (IH (Z.to_nat (SMGR_N_STREAMS - (i + 1))) ltac:(lia)
                  (i + 1) w1 _ _ eq_refl ltac:(lia) Hsp1 w' Hrun)
        as (ss' & hs' & Hlen & Hpl & Htr & Hfresh).
      exists (s :: ss'), (h :: hs'). split; [simpl; congruence|].
      split; [|split].
      * now rewrite <- !app_assoc in Hpl.
      * rewrite Htr, (si_trace _ _ _ _ _ _ _ _ _ Hit), setup_calls_cons.
        now rewrite <- app_assoc.
      * pose proof (si_handle _ _ _ _ _ _ _ _ _ Hit) as Hh0.
        pose proof (si_next_handle _ _ _ _ _ _ _ _ _ Hit) as Hh1.
        intros x [->|Hx]%elem_of_cons; [lia|].
        specialize (Hfresh x Hx). lia.
  - rewrite setup_loop_exit in Hrun by assumption.
    inversion Hrun; subst w'.
    destruct Hsp as [(o & ls & lh & Ho & Hls & Hlh & Hl1 & Hl2 & Ht1 & Ht2)
                       Hal Hnd1 Hnd2 Hst Hha Hbd].
    assert (i = SMGR_N_STREAMS) as -> by lia.
    rewrite take_ge in Ht1 by lia. rewrite take_ge in Ht2 by lia.
    subst ls lh. rewrite length_fmap in Hl1, Hl2.
    exists [], []. rewrite !app_nil_r. split; [reflexivity|].
    split; [|split].
    + split; try done.
      * eauto.
      * intros s Hs. destruct (Hst _ Hs) as (? & _ & ?). done.
    + reflexivity.
    + intros h Hh. now apply elem_of_nil in Hh.
Qed.

Lemma setup_calls_length ss :
  forall hs, length ss = length hs ->
    length (setup_calls ss hs) = (3 * length ss)%nat.
Proof.
  induction ss as [|s ss IH]; intros [|h hs] Hlen; try discriminate.
  - reflexivity.
  - injection Hlen as Hlen. rewrite setup_calls_cons. simpl.
    rewrite (IH hs Hlen). lia.
Qed.

(** X4.  A [setup] that completes has made exactly [1 + 3 N] runtime calls and
    all of them succeeded: the device selection, then for slot after slot
    the creation of its stream, the creation of its handle and the binding
    of that handle to that stream; the pool holds exactly these streams and
    handles, and nothing was synchronized or released. *)
Theorem setup_makes_these_calls this d w o w' :
  heap w !! this = Some o -> (this < next_ptr w)%nat ->
  setup this d w = (Ok tt, w') ->
  exists ss hs,
    pool_live this ss hs w' /\
    dev_trace (gpu w') =
      dev_trace (gpu w) ++ EvSetDevice d cudaSuccess :: setup_calls ss hs /\
    length (setup_calls ss hs) = Z.to_nat (3 * SMGR_N_STREAMS).
Proof.
  intros Ho Hal Hrun.
  destruct (setup_unfold this d w o Ho) as
    [(w1 & Hfail & _)|(w1 & Hnext & Hh & Hheap & Hgpu)].
  - rewrite Hfail in Hrun. inversion Hrun.
  - rewrite Hnext in Hrun.
    destruct (setup_loop_calls this _ 0 w1 [] [] eq_refl
                ltac:(unfold SMGR_N_STREAMS; lia)) with (w' := w')
      as (ss & hs & Hlen & Hpl & Htr & _); [|exact Hrun|].
    { split; simpl.
      - eexists _, _, _. split; [rewrite Hheap; apply lookup_insert_eq|].
        split; [reflexivity|]. split; [reflexivity|].
        rewrite !length_replicate. done.
      - destruct Hh as [-> _ _ _ _]. exact Hal.
      - apply NoDup_nil_2.
      - apply NoDup_nil_2.
      - intros s Hs. now apply elem_of_nil in Hs.
      - intros s Hs. now apply elem_of_nil in Hs.
      - intros j h s Hj. now rewrite lookup_nil in Hj. }
    simpl in Hpl. exists ss, hs. split; [exact Hpl|]. split.
    + rewrite Htr, Hgpu. simpl. now rewrite <- app_assoc.
    + rewrite (setup_calls_length _ _ Hlen).
      rewrite (pl_streams_len _ _ _ _ Hpl). reflexivity.
Qed.

Lemma setup_makes_these_calls_witness :
  exists ss hs,
    pool_live 0%nat ss hs pooled_world /\
    dev_trace (gpu pooled_world) =
      dev_trace (gpu (fresh_world 1 [])) ++
      EvSetDevice 0 cudaSuccess :: setup_calls ss hs /\
    length (setup_calls ss hs) = Z.to_nat (3 * SMGR_N_STREAMS).
Proof.
  apply (setup_makes_these_calls 0%nat 0 (fresh_world 1 [])
           (mkPool 0 false None None) pooled_world).
  - reflexivity.
  - simpl. lia.
  - vm_compute. reflexivity.
Defined.

(** ** sync *)

Lemma sync_loop_bounded this idx :
  forall n i w r w',
    n = Z.to_nat (SMGR_N_STREAMS - i) -> 0 <= i ->
    sync_loop this idx i w = (r, w') ->
    (forall e, r <> Raised e) /\
    exists tr,
      dev_trace (gpu w') = dev_trace (gpu w) ++ tr /\
      (length tr <= Z.to_nat (SMGR_N_STREAMS - i))%nat /\
      (length tr <= Z.to_nat (idx - i))%nat /\
      forall ev, ev ∈ tr -> is_synchronize ev = true.
Proof.
  induction n as [n IH] using lt_wf_ind.
  intros i w r w' Hn Hi Hrun.
  assert (Hnone : forall w0 : World,
             exists tr : list event,
               dev_trace (gpu w0) = dev_trace (gpu w0) ++ tr /\
               (length tr <= Z.to_nat (SMGR_N_STREAMS - i))%nat /\
               (length tr <= Z.to_nat (idx - i))%nat /\
               forall ev, ev ∈ tr -> is_synchronize ev = true).
  { intros w0. exists []. rewrite app_nil_r. simpl.
    repeat split; try lia. intros ev Hev. now apply elem_of_nil in Hev. }
  destruct (decide (i < idx /\ i < SMGR_N_STREAMS)) as [[H1 H2]|Hc].
  - rewrite sync_loop_step in Hrun by assumption.
    apply bind_inv in Hrun as [(self & w1 & Hload & Hrun)|[[Hload ->]|(e & Hload & ->)]];
      unfold load in Hload; destruct (heap w !! this) as [o|];
      inversion Hload; subst; try (split; [done|apply Hnone]).
    apply bind_inv in Hrun as [(s & w2 & Hread & Hrun)|[[Hread ->]|(e & Hread & ->)]];
      pose proof (preserves_read_slot _ _ _ _ _ Hread) as Hst;
      unfold read_slot, ret, undefined in Hread;
      destruct (streams self) as [l|]; try (inversion Hread; fail);
      try (inversion Hread; subst; split; [done|apply Hnone]);
      destruct (0 <=? i); try (inversion Hread; fail);
      try (inversion Hread; subst; split; [done|apply Hnone]);
      destruct (l !! Z.to_nat i) as [[x|]|]; inversion Hread; subst;
      try (split; [done|apply Hnone]).
    apply bind_inv in Hrun as [(u & w3 & Hsync & Hrun)|[[Hsync _]|(e & Hsync & _)]];
      unfold rt in Hsync;
      destruct (cudaStreamSynchronize s (gpu w2)) as [st D1] eqn:HD;
      [injection Hsync as <- <-|discriminate|discriminate].
    destruct (IH (Z.to_nat (SMGR_N_STREAMS - (i + 1))) ltac:(lia)
                (i + 1) _ _ _ eq_refl ltac:(lia) Hrun)
      as (Hr & tr & Htr & Hl1 & Hl2 & Hev).
    split; [exact Hr|].
    assert (HD1 : dev_trace D1 =
                  dev_trace (gpu w2) ++ [EvStreamSynchronize s st]).
    { unfold cudaStreamSynchronize in HD.
      destruct (decide _); inversion HD; reflexivity. }
    exists (EvStreamSynchronize s st :: tr). simpl in Htr.
    split; [rewrite Htr, HD1; now rewrite <- app_assoc|].
    split; [simpl; lia|]. split; [simpl; lia|].
    intros ev [->|Hin]%elem_of_cons; [reflexivity|now apply Hev].
  - rewrite sync_loop_exit in Hrun by assumption.
    inversion Hrun; subst. split; [done|apply Hnone].
Qed.

(** X5.  [sync] never surfaces an error, whatever state the pool and the
    runtime are in and whatever the argument: the status of every
    [cudaStreamSynchronize] is dropped.  Its runtime calls are
    synchronizations only, at most [N] of them and at most [idx]. *)
Theorem sync_never_raises this idx w :
  (forall e, result_of (sync this idx) w <> Raised e) /\
  exists tr,
    dev_trace (gpu (world_after (sync this idx) w)) = dev_trace (gpu w) ++ tr /\
    (length tr <= Z.to_nat SMGR_N_STREAMS)%nat /\
    (length tr <= Z.to_nat idx)%nat /\
    forall ev, ev ∈ tr -> is_synchronize ev = true.
Proof.
  unfold result_of, world_after.
  destruct (sync this idx w) as [r w'] eqn:Hrun. simpl.
  assert (Hnone : exists tr : list event,
             dev_trace (gpu w) = dev_trace (gpu w) ++ tr /\
             (length tr <= Z.to_nat SMGR_N_STREAMS)%nat /\
             (length tr <= Z.to_nat idx)%nat /\
             forall ev, ev ∈ tr -> is_synchronize ev = true).
  { exists []. rewrite app_nil_r. simpl.
    repeat split; try lia. intros ev Hev. now apply elem_of_nil in Hev. }
  unfold sync in Hrun.
  apply bind_inv in Hrun as [(self & w1 & Hload & Hrun)|[[Hload ->]|(e & Hload & ->)]];
    unfold load in Hload; destruct (heap w !! this) as [o|];
    inversion Hload; subst; try (split; [done|apply Hnone]).
  destruct (use_default self).
  - inversion Hrun; subst. split; [done|apply Hnone].
  - destruct (sync_loop_bounded this idx _ 0 _ _ _ eq_refl (Z.le_refl 0) Hrun)
      as (Hr & tr & Htr & Hl1 & Hl2 & Hev).
    split; [exact Hr|]. exists tr.
    rewrite Z.sub_0_r in Hl1, Hl2. done.
Qed.

Lemma cudaStreamSynchronize_status s D :
  dev_trace (snd (cudaStreamSynchronize s D)) =
    dev_trace D ++ [EvStreamSynchronize s (sync_status D s)] /\
  dev_streams (snd (cudaStreamSynchronize s D)) = dev_streams D.
Proof.
  unfold cudaStreamSynchronize, sync_status.
  destruct (decide (s ∈ dev_streams D)); split; reflexivity.
Qed.

Lemma synchronize_all_statuses ss :
  forall D,
    dev_trace (synchronize_all ss D) =
      dev_trace D ++
      ((fun s => EvStreamSynchronize s (sync_status D s)) <$> ss) /\
    dev_streams (synchronize_all ss D) = dev_streams D.
Proof.
  induction ss as [|s ss IH]; intros D.
  - simpl. now rewrite app_nil_r.
  - rewrite synchronize_all_cons.
    destruct (cudaStreamSynchronize_status s D) as [Ht Hs].
    destruct (IH (snd (cudaStreamSynchronize s D))) as [Ht' Hs'].
    split; [|congruence].
    rewrite Ht', Ht, <- app_assoc. simpl. do 2 f_equal.
    apply list_fmap_ext. intros _ x _. unfold sync_status. now rewrite Hs.
Qed.

(** X6.  In pooled mode, on a pool whose stream array is filled, [sync] visits
    every slot below [min(idx, N)] and returns normally even when the
    runtime reports a failure for some of them (a stream that is no longer
    allocated): it neither stops at the failure nor reports it. *)
Theorem sync_keeps_going this w o ss idx :
  heap w !! this = Some o -> use_default o = false ->
  streams o = Some (Some <$> ss) ->
  length ss = Z.to_nat SMGR_N_STREAMS ->
  exists w',
    sync this idx w = (Ok tt, w') /\
    dev_trace (gpu w') =
      dev_trace (gpu w) ++
      ((fun s => EvStreamSynchronize s (sync_status (gpu w) s)) <$>
         take (Z.to_nat (Z.min idx SMGR_N_STREAMS)) ss) /\
    dev_streams (gpu w') = dev_streams (gpu w).
Proof.
  intros Ho Hu Hs Hlen. eexists. split.
  - unfold sync.
    rewrite (bind_ok _ _ _ _ _ (load_ok _ _ _ Ho)), Hu.
    rewrite (sync_loop_run this o ss idx Hs Hlen _ 0 w eq_refl (Z.le_refl 0) Ho).
    rewrite Z.sub_0_r. reflexivity.
  - simpl. apply synchronize_all_statuses.
Qed.

Lemma sync_keeps_going_witness :
  exists w',
    sync 0%nat 3 stale_world = (Ok tt, w') /\
    dev_trace (gpu w') =
      dev_trace (gpu stale_world) ++
      ((fun s => EvStreamSynchronize s (sync_status (gpu stale_world) s)) <$>
         take (Z.to_nat (Z.min 3 SMGR_N_STREAMS)) (seq 10 16)) /\
    dev_streams (gpu w') = dev_streams (gpu stale_world).
Proof.
  apply (sync_keeps_going 0%nat stale_world
           (mkPool 0 false (Some (Some <$> seq 10 16))
              (Some (Some <$> seq 100 16))) (seq 10 16) 3).
  - vm_compute. reflexivity.
  - reflexivity.
  - reflexivity.
  - reflexivity.
Defined.

(** The stale example: the wait on the released stream of slot 1 fails,
    the wait on slot 2 is still made, and [sync] returns normally. *)
Example sync_past_a_failure :
  result_of (sync 0%nat 3) stale_world = Ok tt /\
  drop 50 (dev_trace (gpu (world_after (sync 0%nat 3) stale_world))) =
    [EvStreamSynchronize 10 cudaSuccess;
     EvStreamSynchronize 11 cudaErrorInvalidResourceHandle;
     EvStreamSynchronize 12 cudaSuccess].
Proof. vm_compute. split; reflexivity. Qed.

(** X7.  Work launched on the stream that [stream(i)] returns is covered by a
    later [sync(k)] exactly when slot [i mod N] lies below [k]: then the
    stream has no unfinished work after [sync], otherwise the new work is
    still pending. *)
Theorem sync_covers_submitted_work this w o i k s n :
  Live this w -> heap w !! this = Some o -> use_default o = false ->
  stream this i w = (Ok s, w) ->
  pending (gpu (world_after (sync this k) (do_call (CallSubmit s n) w))) s =
  if decide (i mod SMGR_N_STREAMS < k) then 0%nat
  else (pending (gpu w) s + n)%nat.
Proof.
  intros Hlive Ho Hu Hstream.
  destruct (Live_pool_live _ _ Hlive) as (ss & hs & Hpl).
  destruct (stream_pooled _ _ _ _ _ i Hpl Ho Hu) as (s' & Hsi & Hrs).
  rewrite Hrs in Hstream. injection Hstream as ->.
  pose proof Hpl as [(o' & Ho' & Hs & Hh) _ Hl1 _ Hnd _ Hst _ _].
  rewrite Ho in Ho'. injection Ho' as <-.
  set (w1 := do_call (CallSubmit s n) w).
  assert (Ho1 : heap w1 !! this = Some o) by exact Ho.
  assert (Hrun : sync this k w1 =
            (Ok tt, with_gpu (synchronize_all
                                (take (Z.to_nat (Z.min k SMGR_N_STREAMS)) ss)
                                (gpu w1)) w1)).
  { unfold sync.
    rewrite (bind_ok _ _ _ _ _ (load_ok _ _ _ Ho1)), Hu.
    rewrite (sync_loop_run this o ss k Hs Hl1 _ 0 w1 eq_refl (Z.le_refl 0) Ho1).
    now rewrite Z.sub_0_r. }
  unfold world_after. rewrite Hrun. simpl gpu.
  destruct (synchronize_all_live
              (take (Z.to_nat (Z.min k SMGR_N_STREAMS)) ss) (gpu w1))
    as (_ & _ & Hz & Hk).
  { intros x [j [Hj _]]%elem_of_take. apply Hst.
    apply list_elem_of_lookup. eauto. }
  pose proof (Z.mod_pos_bound i SMGR_N_STREAMS eq_refl) as Hr.
  destruct (decide (i mod SMGR_N_STREAMS < k)) as [Hlt|Hge].
  - apply Hz. apply elem_of_take. exists (Z.to_nat (i mod SMGR_N_STREAMS)).
    split; [exact Hsi|lia].
  - rewrite Hk.
    + unfold pending, w1. simpl. now rewrite lookup_insert_eq.
    + eapply NoDup_outside_prefix; [exact Hnd|exact Hsi|lia].
Qed.

Lemma sync_covers_submitted_work_witness :
  pending (gpu (world_after (sync 0%nat 5)
                  (do_call (CallSubmit 20%nat 3) busy_world))) 20%nat =
  if decide (26 mod SMGR_N_STREAMS < 5) then 0%nat
  else (pending (gpu busy_world) 20%nat + 3)%nat.
Proof.
  apply (sync_covers_submitted_work 0%nat busy_world
           (mkPool 0 false (Some (Some <$> seq 10 16))
              (Some (Some <$> seq 100 16))) 26 5 20%nat 3%nat).
  - exact busy_world_live.
  - vm_compute. reflexivity.
  - reflexivity.
  - vm_compute. reflexivity.
Defined.

(** ** destroy *)

(** [destroy] on a live pool, and the pool object it leaves behind. *)
Lemma destroy_live this w o :
  Live this w -> heap w !! this = Some o ->
  exists w',
    destroy this w = (Ok tt, w') /\
    heap w' = <[ this := mkPool (device o) (use_default o) None None ]>
                (heap w) /\
    same_host w w'.
Proof.
  intros Hlive Ho.
  destruct (Live_pool_live _ _ Hlive) as (ss & hs & Hpl).
  pose proof Hpl as [(o' & Ho' & Hs & Hh) _ Hl1 Hl2 Hnd1 Hnd2 Hst Hha _].
  rewrite Ho in Ho'. injection Ho' as <-.
  destruct (destroy_loop_run this o ss hs Hs Hh Hl1 Hl2 Hnd1 Hnd2
              _ 0 w eq_refl (Z.le_refl 0) Ho)
    as (w1 & Hrun & Hheap & Hhost & _).
  { intros j s _ Hj. apply Hst. apply list_elem_of_lookup. eauto. }
  { intros j h _ Hj. apply Hha. apply list_elem_of_lookup. eauto. }
  assert (Ho1 : heap w1 !! this = Some o) by now rewrite Hheap.
  eexists. split.
  { unfold destroy.
    rewrite (bind_ok _ _ _ _ _ Hrun).
    rewrite (bind_ok _ _ _ _ _ (load_ok _ _ _ Ho1)), Hs.
    unfold delete_array at 1.
    rewrite (bind_ok (ret tt) _ _ tt w1) by reflexivity.
    rewrite (bind_ok _ _ _ _ _ (store_run _ _ _)).
    match goal with |- context [bind (load this) _ ?wx] =>
      set (wa := wx) end.
    assert (Hoa : heap wa !! this = Some (set_streams None o))
      by (subst wa; simpl; apply lookup_insert_eq).
    rewrite (bind_ok _ _ _ _ _ (load_ok _ _ _ Hoa)).
    cbn [handles set_streams]. rewrite Hh. unfold delete_array.
    rewrite (bind_ok (ret tt) _ _ tt wa) by reflexivity.
    apply store_run. }
  simpl. split.
  - rewrite Hheap. now rewrite insert_insert_eq.
  - destruct Hhost. now split.
Qed.

(** X8.  After [destroy] the pool is unusable in pooled mode and [destroy]
    must not be called again: both array pointers dangle, so a second
    [destroy], and in pooled mode either accessor and any [sync] with a
    positive argument, is undefined behaviour before any runtime call is
    made.  In default mode the accessors still return the ambient pair. *)
Theorem destroy_is_final this w o :
  Live this w -> heap w !! this = Some o ->
  exists w',
    destroy this w = (Ok tt, w') /\
    destroy this w' = (Undefined, w') /\
    (use_default o = false ->
     forall idx upto, 0 < upto ->
       stream this idx w' = (Undefined, w') /\
       handle this idx w' = (Undefined, w') /\
       sync this upto w' = (Undefined, w')) /\
    (use_default o = true ->
     forall idx,
       stream this idx w' = (Ok (current_stream w), w') /\
       handle this idx w' = (Ok (current_blas_handle w), w')).
Proof.
  intros Hlive Ho.
  destruct (destroy_live this w o Hlive Ho) as (w' & Hrun & Hheap & Hhost).
  assert (Ho' : heap w' !! this =
                Some (mkPool (device o) (use_default o) None None))
    by (rewrite Hheap; apply lookup_insert_eq).
  exists w'. split; [exact Hrun|]. split; [|split].
  - unfold destroy.
    rewrite destroy_loop_step by reflexivity.
    unfold bind at 1. unfold bind at 1.
    now rewrite (load_ok _ _ _ Ho').
  - intros Hu idx upto Hup.
    now apply (pooled_mode_needs_setup this w' _ idx upto Ho').
  - intros Hu idx. destruct Hhost as [_ _ _ Hcs Hch].
    rewrite <- Hcs, <- Hch. split.
    + now apply (stream_default _ _ _ idx Ho').
    + now apply (handle_default _ _ _ idx Ho').
Qed.

Lemma destroy_is_final_witness :
  exists w',
    destroy 0%nat busy_world = (Ok tt, w') /\
    destroy 0%nat w' = (Undefined, w') /\
    (use_default (mkPool 0 false (Some (Some <$> seq 10 16))
                    (Some (Some <$> seq 100 16))) = false ->
     forall idx upto, 0 < upto ->
       stream 0%nat idx w' = (Undefined, w') /\
       handle 0%nat idx w' = (Undefined, w') /\
       sync 0%nat upto w' = (Undefined, w')) /\
    (use_default (mkPool 0 false (Some (Some <$> seq 10 16))
                    (Some (Some <$> seq 100 16))) = true ->
     forall idx,
       stream 0%nat idx w' = (Ok (current_stream busy_world), w') /\
       handle 0%nat idx w' = (Ok (current_blas_handle busy_world), w')).
Proof.
  apply (destroy_is_final 0%nat busy_world
           (mkPool 0 false (Some (Some <$> seq 10 16))
              (Some (Some <$> seq 100 16)))).
  - exact busy_world_live.
  - vm_compute. reflexivity.
Defined.

(** ** The accessors for any integer argument *)

(** X9.  On a live pool in pooled mode the accessors never index out of range:
    for every integer argument, negative ones included (converted to
    [size_t] they wrap around, and 16 divides 2^64), both return what slot
    [idx mod N] holds, [-1] selecting slot [N - 1]; the handle is bound to
    the stream. *)
Theorem accessors_take_any_integer this w o idx :
  Live this w -> heap w !! this = Some o -> use_default o = false ->
  exists ss hs s h,
    streams o = Some (Some <$> ss) /\ handles o = Some (Some <$> hs) /\
    ss !! Z.to_nat (idx mod SMGR_N_STREAMS) = Some s /\
    hs !! Z.to_nat (idx mod SMGR_N_STREAMS) = Some h /\
    stream this idx w = (Ok s, w) /\
    handle this idx w = (Ok h, w) /\
    dev_bound (gpu w) !! h = Some s.
Proof.
  intros Hlive Ho Hu.
  destruct (Live_pool_live _ _ Hlive) as (ss & hs & Hpl).
  destruct (stream_pooled _ _ _ _ _ idx Hpl Ho Hu) as (s & Hsi & Hrs).
  destruct (handle_pooled _ _ _ _ _ idx Hpl Ho Hu) as (h & Hhi & Hrh).
  pose proof Hpl as [(o' & Ho' & Hs & Hh) _ _ _ _ _ _ _ Hb].
  rewrite Ho in Ho'. injection Ho' as <-.
  exists ss, hs, s, h. repeat (split; [assumption|]).
  eapply Hb; eassumption.
Qed.

Lemma accessors_take_any_integer_witness :
  exists ss hs s h,
    streams (mkPool 0 false (Some (Some <$> seq 10 16))
               (Some (Some <$> seq 100 16))) = Some (Some <$> ss) /\
    handles (mkPool 0 false (Some (Some <$> seq 10 16))
               (Some (Some <$> seq 100 16))) = Some (Some <$> hs) /\
    ss !! Z.to_nat ((-1) mod SMGR_N_STREAMS) = Some s /\
    hs !! Z.to_nat ((-1) mod SMGR_N_STREAMS) = Some h /\
    stream 0%nat (-1) busy_world = (Ok s, busy_world) /\
    handle 0%nat (-1) busy_world = (Ok h, busy_world) /\
    dev_bound (gpu busy_world) !! h = Some s.
Proof.
  apply (accessors_take_any_integer 0%nat busy_world
           (mkPool 0 false (Some (Some <$> seq 10 16))
              (Some (Some <$> seq 100 16))) (-1)).
  - exact busy_world_live.
  - vm_compute. reflexivity.
  - reflexivity.
Defined.

Example minus_one_is_last_slot :
  result_of (stream 0%nat (-1)) pooled_world = Ok 25%nat /\
  result_of (handle 0%nat (-1)) pooled_world = Ok 115%nat.
Proof. vm_compute. split; reflexivity. Qed.

(** ** getCudaStreamManager, one thread at a time *)

Lemma run_step {A X} t (act : action X) (k : X -> prog A) w x w1 :
  act t w = Some (Ok x, w1) -> run t (Atomic act k) w = run t (k x) w1.
Proof. intros H. simpl. now rewrite H. Qed.

Lemma find_miss_step d t w :
  smgrs w !! d = None -> smgrs_find d t w = Some (Ok None, w).
Proof. intros H. simpl. now rewrite H. Qed.

Lemma find_hit_step d p t w :
  smgrs w !! d = Some p -> smgrs_find d t w = Some (Ok (Some d), w).
Proof. intros H. simpl. now rewrite H. Qed.

Lemma lock_step t w :
  smgr_mtx w = None -> mtx_lock t w = Some (Ok tt, with_mtx (Some t) w).
Proof. intros H. simpl. now rewrite H. Qed.


Lemma lock_waits t t' w :
  smgr_mtx w = Some t' -> t' <> t -> mtx_lock t w = None.
Proof. intros H Hne. simpl. rewrite H. now rewrite decide_False. Qed.







(** A first touch while another thread holds the mutex waits. *)
Lemma miss_waits_for_mutex t t' d w :
  smgrs w !! d = None -> smgr_mtx w = Some t' -> t' <> t ->
  run t (getCudaStreamManager d) w = None.
Proof.
  intros Hmiss Hheld Hne. unfold getCudaStreamManager.
  rewrite (run_step _ _ _ _ _ _ (find_miss_step d t w Hmiss)).
  unfold run. now rewrite (lock_waits t t' w Hheld Hne).
Qed.

(** ** The registry over time *)







(** ** setup on a pool that is already live *)

(** X14.  [setup] is not idempotent.  Run again on a live pool it overwrites
    both array pointers with new arrays and fills them with newly created
    streams and handles: the pool is live again, but nothing it held before
    was released; the old streams and handles are all still allocated and
    none of the old handles is in the pool any more. *)
Theorem setup_again_leaks this d w o ss hs w' :
  Live this w -> heap w !! this = Some o ->
  streams o = Some (Some <$> ss) -> handles o = Some (Some <$> hs) ->
  setup this d w = (Ok tt, w') ->
  exists ss' hs',
    pool_live this ss' hs' w' /\
    (forall s, s ∈ ss -> s ∈ dev_streams (gpu w')) /\
    (forall h, h ∈ hs -> h ∈ dev_handles (gpu w') /\ h ∉ hs') /\
    exists tr, dev_trace (gpu w') = dev_trace (gpu w) ++ tr /\
               count_events is_release tr = 0%nat.
Proof.
  intros Hlive Ho Hss Hhs Hrun.
  destruct (Live_pool_live _ _ Hlive) as (ss0 & hs0 & Hpl).
  destruct (pl_object _ _ _ _ Hpl) as (o0 & Ho0 & Hs0 & Hh0).
  rewrite Ho in Ho0. injection Ho0 as <-.
  rewrite Hss in Hs0. injection Hs0 as Hs0. apply (inj (fmap Some)) in Hs0.
  rewrite Hhs in Hh0. injection Hh0 as Hh0. apply (inj (fmap Some)) in Hh0.
  subst ss0 hs0.
  destruct (setup_outcome _ _ _ _ _ _ Ho Hrun) as (_ & Hfr & _).
  destruct Hfr as [_ _ _ Hsts Hhds _ _ (tr & Htr & Hrel & _)].
  simpl in Hsts, Hhds, Htr.
  destruct (setup_unfold this d w o Ho) as
    [(w1 & Hfail & _)|(w1 & Hnext & Hh & Hheap & Hgpu)].
  { rewrite Hfail in Hrun. inversion Hrun. }
  rewrite Hnext in Hrun.
  destruct (setup_loop_calls this _ 0 w1 [] [] eq_refl
              ltac:(unfold SMGR_N_STREAMS; lia)) with (w' := w')
    as (ss' & hs' & _ & Hpl' & _ & Hfresh); [|exact Hrun|].
  { split; simpl.
    - eexists _, _, _. split; [rewrite Hheap; apply lookup_insert_eq|].
      split; [reflexivity|]. split; [reflexivity|].
      rewrite !length_replicate. done.
    - destruct Hh as [-> _ _ _ _]. apply (pl_allocated _ _ _ _ Hpl).
    - apply NoDup_nil_2.
    - apply NoDup_nil_2.
    - intros s Hs. now apply elem_of_nil in Hs.
    - intros s Hs. now apply elem_of_nil in Hs.
    - intros j h s Hj. now rewrite lookup_nil in Hj. }
  simpl in Hpl'. exists ss', hs'. split; [exact Hpl'|]. split; [|split].
  - intros s Hs. apply Hsts. now apply (pl_streams_live _ _ _ _ Hpl).
  - intros h Hhin.
    destruct (pl_handles_live _ _ _ _ Hpl h Hhin) as (Hl & Hlt & _).
    split; [now apply Hhds|].
    intros Hin. specialize (Hfresh h Hin). rewrite Hgpu in Hfresh.
    simpl in Hfresh. lia.
  - exists tr. split; [exact Htr|].
    clear -Hrel. induction tr as [|x l IH]; [reflexivity|].
    simpl. rewrite (Hrel x) by (apply elem_of_cons; now left).
    apply IH. intros y Hy. apply Hrel. apply elem_of_cons. now right.
Qed.

Lemma setup_again_leaks_witness :
  exists ss' hs',
    pool_live 0%nat ss' hs' (world_after (setup 0%nat 0) pooled_world) /\
    (forall s, s ∈ seq 10 16 ->
       s ∈ dev_streams (gpu (world_after (setup 0%nat 0) pooled_world))) /\
    (forall h, h ∈ seq 100 16 ->
       h ∈ dev_handles (gpu (world_after (setup 0%nat 0) pooled_world)) /\
       h ∉ hs') /\
    exists tr,
      dev_trace (gpu (world_after (setup 0%nat 0) pooled_world)) =
        dev_trace (gpu pooled_world) ++ tr /\
      count_events is_release tr = 0%nat.
Proof.
  apply (setup_again_leaks 0%nat 0 pooled_world
           (mkPool 0 false (Some (Some <$> seq 10 16))
              (Some (Some <$> seq 100 16)))).
  - exact pooled_world_live.
  - vm_compute. reflexivity.
  - reflexivity.
  - reflexivity.
  - vm_compute. reflexivity.
Defined.

(** ** Asking for a device that does not exist *)

(** X15.  A first touch for a device id out of range allocates a pool object,
    fails at the device selection, and leaves the call with that error:
    no stream or handle is created, nothing is registered, the storage of
    the pool object is given back, and the mutex stays held. *)
Theorem first_touch_of_bad_device t d w :
  smgrs w !! d = None -> smgr_mtx w = None ->
  ~ (0 <= d < dev_count (gpu w)) ->
  exists w1,
    run t (getCudaStreamManager d) w =
      Some (Raised (CudaError cudaErrorInvalidDevice), w1) /\
    smgr_mtx w1 = Some t /\ smgrs w1 = smgrs w /\
    heap w1 = delete (next_ptr w) (heap w) /\
    dev_streams (gpu w1) = dev_streams (gpu w) /\
    dev_handles (gpu w1) = dev_handles (gpu w) /\
    dev_trace (gpu w1) =
      dev_trace (gpu w) ++ [EvSetDevice d cudaErrorInvalidDevice].
Proof.
  intros Hnone Hfree Hbad.
  set (wa := mkWorld (<[ next_ptr w := mkPool d false None None ]> (heap w))
               (S (next_ptr w)) (smgrs w) (Some t) (gpu w)
               (current_stream w) (current_blas_handle w)).
  assert (Hnew0 : new_CudaStreamManager d (with_mtx (Some t) w) =
                  match setup (next_ptr w) d wa with
                  | (Ok _, w2) => (Ok (next_ptr w), w2)
                  | (Raised e, w2) =>
                      (Raised e, with_heap (delete (next_ptr w) (heap w2)) w2)
                  | (Undefined, w2) => (Undefined, w2)
                  end)
    by reflexivity.
  assert (Hheap : heap wa =
                  <[ next_ptr w := mkPool d false None None ]> (heap w))
    by reflexivity.
  assert (Hgpu : gpu wa = gpu w) by reflexivity.
  assert (Hmt : smgr_mtx wa = Some t) by reflexivity.
  assert (Hsm : smgrs wa = smgrs w) by reflexivity.
  clearbody wa.
  assert (Hoa : heap wa !! next_ptr w = Some (mkPool d false None None))
    by (rewrite Hheap; apply lookup_insert_eq).
  assert (HD : cudaSetDevice d (gpu wa) =
               (cudaErrorInvalidDevice,
                log (EvSetDevice d cudaErrorInvalidDevice) (gpu wa))).
  { unfold cudaSetDevice. rewrite Hgpu.
    destruct (Z.leb_spec 0 d); destruct (Z.ltb_spec d (dev_count (gpu w)));
      simpl; try reflexivity. lia. }
  assert (Hsetup : exists w2,
             setup (next_ptr w) d wa =
               (Raised (CudaError cudaErrorInvalidDevice), w2) /\
             heap w2 = <[ next_ptr w := mkPool d false None None ]> (heap wa) /\
             gpu w2 = log (EvSetDevice d cudaErrorInvalidDevice) (gpu wa) /\
             smgr_mtx w2 = smgr_mtx wa /\ smgrs w2 = smgrs wa).
  { eexists. split.
    - unfold setup.
      rewrite (bind_ok _ _ _ _ _ (load_ok _ _ _ Hoa)).
      rewrite (bind_ok _ _ _ _ _ (store_run _ _ _)).
      rewrite (bind_ok _ _ _ _ _ (rt_run _ (with_heap _ wa) _ _ HD)).
      reflexivity.
    - simpl. repeat split. }
  destruct Hsetup as (w2 & Hsetup & Hh2 & Hg2 & Hm2 & Hs2).
  rewrite Hsetup in Hnew0.
  exists (with_heap (delete (next_ptr w) (heap w2)) w2). split.
  { unfold getCudaStreamManager.
    rewrite (run_step _ _ _ _ _ _ (find_miss_step d t w Hnone)).
    rewrite (run_step _ _ _ _ _ _ (lock_step t w Hfree)).
    rewrite (run_step _ _ _ _ _ _
               (find_miss_step d t (with_mtx (Some t) w) Hnone)).
    simpl. now rewrite Hnew0. }
  simpl. rewrite Hm2, Hs2, Hh2, Hg2, Hheap, Hgpu, Hmt, Hsm.
  repeat split. now rewrite !delete_insert_eq.
Qed.

Lemma first_touch_of_bad_device_witness :
  exists w1,
    run 0%nat (getCudaStreamManager 7) cold_world =
      Some (Raised (CudaError cudaErrorInvalidDevice), w1) /\
    smgr_mtx w1 = Some 0%nat /\ smgrs w1 = smgrs cold_world /\
    heap w1 = delete (next_ptr cold_world) (heap cold_world) /\
    dev_streams (gpu w1) = dev_streams (gpu cold_world) /\
    dev_handles (gpu w1) = dev_handles (gpu cold_world) /\
    dev_trace (gpu w1) =
      dev_trace (gpu cold_world) ++ [EvSetDevice 7 cudaErrorInvalidDevice].
Proof.
  apply (first_touch_of_bad_device 0%nat 7 cold_world).
  - reflexivity.
  - reflexivity.
  - simpl. lia.
Defined.
